(** * BugFix AI: the response parser of [app.py]

    A shallow embedding of [parse_ai_response] (src/app.py, lines 29-122)
    together with the fragment of Python's [re] module that its four
    patterns use, and the properties of the parser stated in the
    specification.

    Text model.  A Python [str] is a sequence of code points; here it is a
    list of [ascii], read as the code points below 256.  On that range
    [str.isspace], [str.lower] and the [re] flags [IGNORECASE] and [DOTALL]
    are modelled as Python defines them.  Replies with a code point from
    256 on are outside the model.  Some of those code points matter to
    the parser: under [IGNORECASE] a pattern letter [s] also matches
    U+017F, [i] also matches U+0130 and U+0131, and [k] also matches
    U+212A, while [str.lower] leaves U+017F and U+0131 as they are.  So
    that a statement reads the same on such replies, a statement about a
    heading found by a pattern says so through the pattern ([error_located],
    [suggestions_located], [find] under [IGNORECASE]) and not through the
    phrase in the lowered text. *)

From Stdlib Require Import String Ascii Bool Arith NArith Lia List.
Import ListNotations.

Set Implicit Arguments.

(* ================================================================== *)
(** * Characters and strings *)
(* ================================================================== *)

Module Py.

Definition str := list ascii.

Definition ord (c : ascii) : N := N_of_ascii c.

Definition LF : ascii := ascii_of_N 10.
Definition TAB : ascii := ascii_of_N 9.
Definition CR : ascii := ascii_of_N 13.
Definition BACKSLASH : ascii := ascii_of_N 92.

(** A Python string literal whose escapes are [\n], [\t], [\r] and [\\];
    every other character stands for itself. *)
Fixpoint unescape (s : str) : str :=
  match s with
  | [] => []
  | c :: s' =>
      if Ascii.eqb c BACKSLASH then
        match s' with
        | d :: s'' =>
            if Ascii.eqb d "n" then LF :: unescape s''
            else if Ascii.eqb d "t" then TAB :: unescape s''
            else if Ascii.eqb d "r" then CR :: unescape s''
            else if Ascii.eqb d BACKSLASH then BACKSLASH :: unescape s''
            else c :: unescape s'
        | [] => [c]
        end
      else c :: unescape s'
  end.

Definition py (s : string) : str := unescape (list_ascii_of_string s).

(** [str.isspace] on one code point below 256: TAB..CR, the separators
    0x1C..0x1F, SPACE, NEL (0x85) and NBSP (0xA0). *)
Definition isspace (c : ascii) : bool :=
  let n := ord c in
  (((9 <=? n) && (n <=? 13)) || ((28 <=? n) && (n <=? 31))
   || (n =? 32) || (n =? 133) || (n =? 160))%N.

(** [str.lower] on one code point below 256: A..Z and the Latin-1 capitals
    0xC0..0xDE (0xD7, the multiplication sign, apart). *)
Definition lower_char (c : ascii) : ascii :=
  let n := ord c in
  if (((65 <=? n) && (n <=? 90))
      || ((192 <=? n) && (n <=? 222) && negb (n =? 215)))%N
  then ascii_of_N (n + 32) else c.

Definition lower (s : str) : str := map lower_char s.

Definition isalpha_ascii (c : ascii) : bool :=
  let n := ord c in
  (((97 <=? n) && (n <=? 122)) || ((65 <=? n) && (n <=? 90)))%N.

(** Comparison of a pattern character [c] with a text character [x], under
    [IGNORECASE] when [ci] is set, for code points below 256: there the
    two match when their lower cases are equal. *)
Definition eq_char (ci : bool) (c x : ascii) : bool :=
  if ci then Ascii.eqb (lower_char x) (lower_char c) else Ascii.eqb x c.

Fixpoint dropwhile (p : ascii -> bool) (s : str) : str :=
  match s with
  | [] => []
  | c :: s' => if p c then dropwhile p s' else s
  end.

Definition lstrip (s : str) : str := dropwhile isspace s.
Definition rstrip (s : str) : str := rev (dropwhile isspace (rev s)).

(** [s.strip()] *)
Definition strip (s : str) : str := rstrip (lstrip s).

(** Does [s] begin with the text [p], compared under [IGNORECASE] when [ci]
    is set?  With [ci] unset this is [s.startswith(p)]. *)
Fixpoint starts (ci : bool) (p s : str) : bool :=
  match p, s with
  | [], _ => true
  | _ :: _, [] => false
  | c :: p', x :: s' => eq_char ci c x && starts ci p' s'
  end.

(** The index of the first occurrence of [p] in [s]; with [ci] unset this
    is [s.find(p)], with [None] for -1. *)
Fixpoint find (ci : bool) (p s : str) : option nat :=
  if starts ci p s then Some 0
  else match s with
       | [] => None
       | _ :: s' => option_map S (find ci p s')
       end.

(** [p in s] *)
Fixpoint contains (p s : str) : bool :=
  starts false p s ||
  match s with
  | [] => false
  | _ :: s' => contains p s'
  end.

(** [s[i:]] for [0 <= i] *)
Definition slice_from (i : nat) (s : str) : str := skipn i s.

(** Truthiness of an optional string: [None] and [''] are false. *)
Definition truthy (o : option str) : bool :=
  match o with
  | None => false
  | Some [] => false
  | Some (_ :: _) => true
  end.

Definition is_None (o : option str) : bool :=
  match o with None => true | Some _ => false end.

End Py.

(* ================================================================== *)
(** * The fragment of [re] used by the parser *)
(* ================================================================== *)

Module Re.
Import Py.

Record flags := { IGNORECASE : bool; DOTALL : bool }.

(** One-character items of a pattern. *)
Inductive atom : Type :=
| Chr (c : ascii)            (* a literal character *)
| Dot                        (* [.] *)
| Space                      (* [\s] *)
| Letters.                   (* [[a-zA-Z]] *)

(** Patterns.  The repetitions [*] and [*?] are applied to one-character
    items only, as in every pattern of the source. *)
Inductive regex : Type :=
| Eps
| Atom (a : atom)
| Cat (r1 r2 : regex)
| Alt (r1 r2 : regex)                (* [r1|r2] *)
| Star (a : atom)                    (* [a*], greedy *)
| StarLazy (a : atom)                (* [a*?] *)
| Opt (r : regex)                    (* [(?:r)?], greedy *)
| Group1 (r : regex)                 (* [(r)], the pattern's group 1 *)
| Lookahead (r : regex)              (* [(?=r)] *)
| EndOfString.                       (* [\Z] *)

(** The literal text [s] as a pattern. *)
Fixpoint Text (s : str) : regex :=
  match s with
  | [] => Eps
  | c :: s' => Cat (Atom (Chr c)) (Text s')
  end.

Definition atom_matches (fl : flags) (a : atom) (x : ascii) : bool :=
  match a with
  | Chr c => eq_char (IGNORECASE fl) c x
  | Dot => DOTALL fl || negb (Ascii.eqb x LF)
  | Space => isspace x
  | Letters => isalpha_ascii x
  end.

Definition orelse {A} (x y : option A) : option A :=
  match x with Some _ => x | None => y end.

(** What a match attempt hands to the rest of the pattern: the text not yet
    consumed and the capture of group 1, if the group has taken part. *)
Definition cont (A : Type) := str -> option str -> option A.

(** Backtracking matcher in continuation-passing style.  Alternatives are
    tried in the order of the [re] module: left branch first, the longest
    repetition first for [*], the shortest first for [*?], the optional
    item present first. *)
Fixpoint rmatch {A} (fl : flags) (r : regex) (s : str) (g : option str)
    (k : cont A) {struct r} : option A :=
  match r with
  | Eps => k s g
  | Atom a =>
      match s with
      | x :: s' => if atom_matches fl a x then k s' g else None
      | [] => None
      end
  | Cat r1 r2 => rmatch fl r1 s g (fun s' g' => rmatch fl r2 s' g' k)
  | Alt r1 r2 => orelse (rmatch fl r1 s g k) (rmatch fl r2 s g k)
  | Star a =>
      (fix loop (t : str) : option A :=
         match t with
         | x :: t' =>
             if atom_matches fl a x then orelse (loop t') (k t g) else k t g
         | [] => k t g
         end) s
  | StarLazy a =>
      (fix loop (t : str) : option A :=
         match t with
         | x :: t' =>
             if atom_matches fl a x then orelse (k t g) (loop t') else k t g
         | [] => k t g
         end) s
  | Opt r1 => orelse (rmatch fl r1 s g k) (k s g)
  | Group1 r1 =>
      rmatch fl r1 s g
        (fun s' _ => k s' (Some (firstn (length s - length s') s)))
  | Lookahead r1 =>
      match rmatch fl r1 s g (fun _ g' => Some g') with
      | Some g' => k s g'
      | None => None
      end
  | EndOfString =>
      match s with
      | [] => k s g
      | _ :: _ => None
      end
  end.

(** A match object: [m.start()], [m.end()] and [m.group(1)], which is
    [None] when group 1 took no part in the match. *)
Record match_obj := { m_start : nat; m_end : nat; group1 : option str }.

Definition match_here (fl : flags) (r : regex) (pos : nat) (s : str)
    : option match_obj :=
  rmatch fl r s None
    (fun s' g => Some {| m_start := pos;
                         m_end := pos + (length s - length s');
                         group1 := g |}).

(** [re.search]: the first position, from the left, at which the pattern
    matches; the position at the end of the text is tried too. *)
Fixpoint search_from (fl : flags) (r : regex) (pos : nat) (s : str)
    : option match_obj :=
  match match_here fl r pos s with
  | Some m => Some m
  | None =>
      match s with
      | [] => None
      | _ :: s' => search_from fl r (S pos) s'
      end
  end.

Definition search (r : regex) (text : str) (fl : flags) : option match_obj :=
  search_from fl r 0 text.

End Re.

(* ================================================================== *)
(** * [parse_ai_response] *)
(* ================================================================== *)

Import Py Re.

(** The exception the body could raise: a method call on [None]. *)
Inductive exn : Type := AttributeError.

Inductive result (A : Type) : Type :=
| Ok (a : A)
| Raise (e : exn).
Arguments Ok {A} a.
Arguments Raise {A} e.

Definition bind {A B} (x : result A) (f : A -> result B) : result B :=
  match x with
  | Ok a => f a
  | Raise e => Raise e
  end.

Notation "x <- c ;; k" := (bind c (fun x => k))
  (at level 61, c at next level, right associativity).

(** [m.group(1).strip()]: raises when the group is [None]. *)
Definition group1_strip (m : match_obj) : result str :=
  match group1 m with
  | Some t => Ok (strip t)
  | None => Raise AttributeError
  end.

(** The dictionary [sections], whose three keys are fixed at creation. *)
Record sections := {
  error_details : option str;
  corrected_code : option str;
  suggestions : option str
}.

(** The local variables the body updates. *)
Record locals := {
  secs : sections;
  parsing_successful : bool
}.

Definition set_error_details (v : str) (l : locals) : locals :=
  {| secs := {| error_details := Some v;
                corrected_code := corrected_code (secs l);
                suggestions := suggestions (secs l) |};
     parsing_successful := parsing_successful l |}.

Definition set_corrected_code (v : str) (l : locals) : locals :=
  {| secs := {| error_details := error_details (secs l);
                corrected_code := Some v;
                suggestions := suggestions (secs l) |};
     parsing_successful := parsing_successful l |}.

Definition set_suggestions (v : str) (l : locals) : locals :=
  {| secs := {| error_details := error_details (secs l);
                corrected_code := corrected_code (secs l);
                suggestions := Some v |};
     parsing_successful := parsing_successful l |}.

Definition set_failed (l : locals) : locals :=
  {| secs := secs l; parsing_successful := false |}.

(** ** The patterns *)

Definition H_ERROR : str := py "## Error Details".
Definition H_CODE : str := py "## Corrected Code".
Definition H_SUGG : str := py "## Suggestions".
Definition FENCE : str := py "```".
Definition CLOSING : str := py "\n```".

(** Line 46.  The items of the pattern, in order: the text
    [## Error Details], [\s*], group 1 holding [.*?], [\s*], and the
    lookahead [(?=## Corrected Code|## Suggestions|\Z)]. *)
Definition error_re : regex :=
  Cat (Text H_ERROR)
 (Cat (Star Space)
 (Cat (Group1 (StarLazy Dot))
 (Cat (Star Space)
      (Lookahead (Alt (Text H_CODE) (Alt (Text H_SUGG) EndOfString)))))).

(** Line 61.  The text [## Corrected Code], then [\s*]. *)
Definition heading_re : regex := Cat (Text H_CODE) (Star Space).

(** Line 69.  Three backticks, the optional item [(?:[a-zA-Z]*\n)?],
    group 1 holding [.*?], a line feed and three backticks. *)
Definition code_block_re : regex :=
  Cat (Text FENCE)
 (Cat (Opt (Cat (Star Letters) (Atom (Chr LF))))
 (Cat (Group1 (StarLazy Dot))
      (Text CLOSING))).

(** Line 88.  The text [## Suggestions], [\s*], and group 1 holding the
    greedy [.*]. *)
Definition suggestions_re : regex :=
  Cat (Text H_SUGG) (Cat (Star Space) (Group1 (Star Dot))).

Definition DOTALL_IGNORECASE : flags := {| IGNORECASE := true; DOTALL := true |}.
Definition IGNORECASE_only : flags := {| IGNORECASE := true; DOTALL := false |}.
Definition DOTALL_only : flags := {| IGNORECASE := false; DOTALL := true |}.

(** ** The sentinel and placeholder messages *)

Definition MSG_ERROR_DETAILS : str :=
  py "[Parsing Error: Could not isolate Error Details section]".
Definition MSG_NO_BLOCK : str :=
  py "[Parsing Error: Found 'Corrected Code' heading but no valid code block immediately after it]".
Definition MSG_NO_HEADING : str :=
  py "[Parsing Error: Could not find '## Corrected Code' heading]".
Definition MSG_NO_SUGGESTIONS : str :=
  py "[No specific suggestions provided.]".
Definition MSG_SUGGESTIONS : str :=
  py "[Parsing Error: Could not isolate Suggestions section]".

(** ** The body, block by block *)

(** Lines 36-41. *)
Definition initial : locals :=
  {| secs := {| error_details := None;
                corrected_code := None;
                suggestions := None |};
     parsing_successful := true |}.

(** Lines 43-56, [# --- Extract Error Details ---]. *)
Definition extract_error_details (response_text : str) (l : locals)
    : result locals :=
  let error_match := search error_re response_text DOTALL_IGNORECASE in
  match error_match with
  | Some m =>
      v <- group1_strip m ;;
      Ok (set_error_details v l)
  | None =>
      let l := if contains (py "error details") (lower response_text)
               then set_error_details MSG_ERROR_DETAILS l else l in
      Ok (set_failed l)
  end.

(** Lines 58-83, [# --- Extract Corrected Code ---]. *)
Definition extract_corrected_code (response_text : str) (l : locals)
    : result locals :=
  let corrected_code_heading_match :=
    search heading_re response_text IGNORECASE_only in
  match corrected_code_heading_match with
  | Some hm =>
      let search_start_index := m_end hm in
      let code_block_match :=
        search code_block_re (slice_from search_start_index response_text)
               DOTALL_only in
      match code_block_match with
      | Some m =>
          v <- group1_strip m ;;
          Ok (set_corrected_code v l)
      | None =>
          let l := if contains (py "corrected code") (lower response_text)
                   then set_corrected_code MSG_NO_BLOCK l else l in
          Ok (set_failed l)
      end
  | None =>
      let l := if contains (py "corrected code") (lower response_text)
               then set_corrected_code MSG_NO_HEADING l else l in
      Ok (set_failed l)
  end.

(** Lines 85-106, [# --- Extract Suggestions ---]. *)
Definition extract_suggestions (response_text : str) (l : locals)
    : result locals :=
  let suggestions_match :=
    search suggestions_re response_text DOTALL_IGNORECASE in
  match suggestions_match with
  | Some m =>
      v <- group1_strip m ;;
      let l := set_suggestions v l in
      Ok (if negb (truthy (suggestions (secs l)))
          then set_suggestions MSG_NO_SUGGESTIONS l else l)
  | None =>
      Ok (if contains (py "suggestions") (lower response_text)
          then set_suggestions MSG_SUGGESTIONS l else l)
  end.

(** Lines 108-114, [# Final check]. *)
Definition final_check (response_text : str) (l : locals) : locals :=
  if is_None (error_details (secs l)) || is_None (corrected_code (secs l))
  then
    if contains (py "error details") (lower response_text)
       || contains (py "corrected code") (lower response_text)
    then set_failed l else l
  else l.

(** Lines 117-119. *)
Definition nothing_extracted_check (response_text : str) (l : locals)
    : locals :=
  if truthy (Some response_text)
     && negb (truthy (error_details (secs l)))
     && negb (truthy (corrected_code (secs l)))
     && negb (truthy (suggestions (secs l)))
  then set_failed l else l.

(** [parse_ai_response(response_text)], returning
    [(sections, parsing_successful)]. *)
Definition parse_ai_response (response_text : str)
    : result (sections * bool) :=
  l <- extract_error_details response_text initial ;;
  l <- extract_corrected_code response_text l ;;
  l <- extract_suggestions response_text l ;;
  let l := final_check response_text l in
  let l := nothing_extracted_check response_text l in
  Ok (secs l, parsing_successful l).


(* ================================================================== *)
(** * Definitions used by the statements and the proofs *)
(* ================================================================== *)

(** The places where the lookahead of [error_re] holds: before a
    [## Corrected Code] or [## Suggestions] heading, and at the end of the
    text. *)
Definition at_boundary (s : str) : bool :=
  starts true H_CODE s || starts true H_SUGG s
  || match s with [] => true | _ :: _ => false end.

Definition boundary_re : regex :=
  Lookahead (Alt (Text H_CODE) (Alt (Text H_SUGG) EndOfString)).

Definition error_tail_re : regex := Cat (Star Space) boundary_re.

Definition error_body_re : regex :=
  Cat (Star Space) (Cat (Group1 (StarLazy Dot)) error_tail_re).

(** Patterns every match of which goes through group 1. *)
Fixpoint sets_group1 (r : regex) : bool :=
  match r with
  | Group1 _ => true
  | Cat r1 r2 => sets_group1 r1 || sets_group1 r2
  | Alt r1 r2 => sets_group1 r1 && sets_group1 r2
  | Lookahead r1 => sets_group1 r1
  | _ => false
  end.

(** A continuation whose results satisfy [Q] when it is entered with the
    group set, and one whose results satisfy [Q] however it is entered. *)
Definition good {A} (Q : A -> Prop) (k : cont A) : Prop :=
  forall s g m, g <> None -> k s g = Some m -> Q m.

Definition very_good {A} (Q : A -> Prop) (k : cont A) : Prop :=
  forall s g m, k s g = Some m -> Q m.

(** The Error Details section was located: [error_match] is a match. *)
Definition error_located (response_text : str) : bool :=
  match search error_re response_text DOTALL_IGNORECASE with
  | Some _ => true
  | None => false
  end.

(** The Corrected Code section was located: the heading was found and a
    fenced block was found after it. *)
Definition code_located (response_text : str) : bool :=
  match search heading_re response_text IGNORECASE_only with
  | Some hm =>
      match search code_block_re (slice_from (m_end hm) response_text)
                   DOTALL_only with
      | Some _ => true
      | None => false
      end
  | None => false
  end.

(** The heading of the Suggestions section was found. *)
Definition suggestions_located (response_text : str) : bool :=
  match search suggestions_re response_text DOTALL_IGNORECASE with
  | Some _ => true
  | None => false
  end.

(** The field [error_details] is assigned, by line 51 or by line 55: the
    section was located or the lowered text has the phrase. *)
Definition error_details_assigned (response_text : str) : bool :=
  error_located response_text
  || contains (py "error details") (lower response_text).

(** The field [suggestions] is assigned, by lines 96-99 or by line 104. *)
Definition suggestions_assigned (response_text : str) : bool :=
  suggestions_located response_text
  || contains (py "suggestions") (lower response_text).

Definition no_sections : sections :=
  {| error_details := None; corrected_code := None; suggestions := None |}.

(** A fenced code block: the opening fence with its language tag, the
    interior [c], and the closing fence on a line of its own. *)
Definition fenced (tag c : str) : str := FENCE ++ tag ++ LF :: c ++ CLOSING.

(** Patterns without group 1: the rest of the pattern sees the capture it
    was entered with. *)
Fixpoint groupless (r : regex) : bool :=
  match r with
  | Group1 _ => false
  | Cat r1 r2 | Alt r1 r2 => groupless r1 && groupless r2
  | Opt r1 | Lookahead r1 => groupless r1
  | _ => true
  end.

(* ================================================================== *)
(** * The Streamlit script around the parser *)
(* ================================================================== *)

(** Exceptions that can reach the handler of lines 236-238: one raised by
    the parser, the [TypeError] of a membership test on [None], and one
    raised by the generator's library. *)
Inductive py_exn : Type :=
| ParserRaised (e : exn)
| TypeError
| LibraryError (name : str).

Inductive outcome (A : Type) : Type :=
| Done (a : A)
| Raised (e : py_exn).
Arguments Done {A} a.
Arguments Raised {A} e.

(** The fixed texts the script displays, named after the line that holds
    them. *)
Inductive literal : Type :=
| KEY_NOT_FOUND            (* line 14 *)
| SPINNER_TEXT             (* line 145 *)
| ANALYSIS_RESULTS         (* line 184 *)
| ERROR_DETAILS_TITLE      (* line 187 *)
| DETAILS_NOT_EXTRACTED    (* line 192 *)
| NO_DETAILS               (* line 196 *)
| CORRECTED_CODE_TITLE     (* line 200 *)
| NO_CODE                  (* line 207 *)
| CODE_NOT_EXTRACTED       (* line 209 *)
| SUGGESTIONS_TITLE        (* line 213 *)
| NO_SUGGESTIONS           (* line 220 *)
| FORMAT_WARNING           (* line 225 *)
| BLOCKED                  (* line 230 *)
| NO_PROMPT_FEEDBACK       (* line 234 *)
| ENTER_SOME_CODE          (* line 241 *)
| NOT_CONFIGURED.          (* line 243 *)

(** What a Streamlit call is given: a fixed text, a computed string, a
    text or box built from an exception, or the prompt feedback of the
    response. *)
Inductive argument : Type :=
| Fixed (t : literal)
| Dynamic (t : str)
| About (e : py_exn)
| Feedback.

Inductive st_function : Type :=
| st_warning | st_error | st_info | st_markdown | st_subheader | st_code
| st_text_area | st_exception | st_json | st_write | st_spinner.

(** One call of the Streamlit interface. *)
Inductive call : Type := Call (f : st_function) (a : argument).

(** A piece of the script: the calls it makes, in order, and how it
    ends. *)
Definition ui (A : Type) : Type := (list call * outcome A)%type.

Definition ui_ret {A} (a : A) : ui A := ([], Done a).
Definition emit (c : call) : ui unit := ([c], Done tt).
Definition ui_raise {A} (e : py_exn) : ui A := ([], Raised e).

Definition ui_bind {A B} (x : ui A) (f : A -> ui B) : ui B :=
  match x with
  | (ev, Done a) => let (ev', r) := f a in (ev ++ ev', r)
  | (ev, Raised e) => (ev, Raised e)
  end.

Notation "c ;;; k" := (ui_bind c (fun _ => k))
  (at level 62, right associativity).

(** The marker of the diagnostic messages, lines 189, 202 and 215. *)
Definition MARK : str := py "[Parsing Error:".

Definition str_eqb (a b : str) : bool :=
  if list_eq_dec ascii_dec a b then true else false.

(** Lines 187-196.  The key [error_details] is in every dictionary the
    parser returns, so [get] never uses its default and [details] is the
    field itself; the membership test of line 189 raises on [None]. *)
Definition show_error_details (parsed_sections : sections)
    (parsing_successful : bool) : ui unit :=
  emit (Call st_markdown (Fixed ERROR_DETAILS_TITLE)) ;;;
  let details := error_details parsed_sections in
  match details with
  | None => ui_raise TypeError
  | Some d =>
      if contains MARK d then emit (Call st_warning (Dynamic d))
      else if str_eqb d (py "[No error details extracted.]")
              && negb parsing_successful
      then emit (Call st_info (Fixed DETAILS_NOT_EXTRACTED))
      else if truthy details then emit (Call st_markdown (Dynamic d))
      else emit (Call st_info (Fixed NO_DETAILS))
  end.

(** Lines 200-209. *)
Definition show_corrected_code (parsed_sections : sections)
    (parsing_successful : bool) : ui unit :=
  emit (Call st_markdown (Fixed CORRECTED_CODE_TITLE)) ;;;
  let code := corrected_code parsed_sections in
  match code with
  | Some (x :: c) =>
      if contains MARK (x :: c) then emit (Call st_warning (Dynamic (x :: c)))
      else emit (Call st_code (Dynamic (x :: c)))
  | _ =>
      emit (Call st_info (Fixed NO_CODE)) ;;;
      if negb parsing_successful
      then emit (Call st_warning (Fixed CODE_NOT_EXTRACTED))
      else ui_ret tt
  end.

(** Lines 213-220; as for the error details, the membership test of line
    215 raises on [None]. *)
Definition show_suggestions (parsed_sections : sections) : ui unit :=
  emit (Call st_markdown (Fixed SUGGESTIONS_TITLE)) ;;;
  let suggestions := suggestions parsed_sections in
  match suggestions with
  | None => ui_raise TypeError
  | Some t =>
      if contains MARK t then emit (Call st_warning (Dynamic t))
      else if truthy suggestions then emit (Call st_markdown (Dynamic t))
      else emit (Call st_info (Fixed NO_SUGGESTIONS))
  end.

(** Lines 224-226. *)
Definition show_raw_response (ai_response_text : str)
    (parsing_successful : bool) : ui unit :=
  if negb parsing_successful && truthy (Some ai_response_text)
  then emit (Call st_warning (Fixed FORMAT_WARNING)) ;;;
       emit (Call st_text_area (Dynamic ai_response_text))
  else ui_ret tt.

(** Lines 181-226: the reply has parts and its text is
    [ai_response_text]. *)
Definition show_results (ai_response_text : str) : ui unit :=
  match parse_ai_response ai_response_text with
  | Raise e => ui_raise (ParserRaised e)
  | Ok (parsed_sections, parsing_successful) =>
      emit (Call st_subheader (Fixed ANALYSIS_RESULTS)) ;;;
      show_error_details parsed_sections parsing_successful ;;;
      show_corrected_code parsed_sections parsing_successful ;;;
      show_suggestions parsed_sections ;;;
      show_raw_response ai_response_text parsing_successful
  end.

(** What lines 148-181 can come to: the generator, or reading the text of
    its response, raises; the response has no parts, its prompt feedback
    being displayable or not; the response has parts and a text. *)
Inductive reply : Type :=
| GenerationRaises (e : py_exn)
| NoParts (feedback_shown : bool)
| Parts (text : str).

(** Lines 146-238: the [try] statement with its handler. *)
Definition analyze (r : reply) : list call :=
  let '(ev, out) :=
    match r with
    | GenerationRaises e => ui_raise e
    | Parts text => show_results text
    | NoParts feedback_shown =>
        emit (Call st_error (Fixed BLOCKED)) ;;;
        (if feedback_shown then emit (Call st_json Feedback)
         else emit (Call st_write (Fixed NO_PROMPT_FEEDBACK)))
    end in
  match out with
  | Done _ => ev
  | Raised e => ev ++ [Call st_error (About e); Call st_exception (About e)]
  end.

(** Lines 144-243. *)
Definition run_app (analyze_button : bool) (user_code : str)
    (genai_configured : bool) (r : reply) : list call :=
  if analyze_button && truthy (Some user_code) && genai_configured
  then Call st_spinner (Fixed SPINNER_TEXT) :: analyze r
  else if analyze_button && negb (truthy (Some user_code))
  then [Call st_warning (Fixed ENTER_SOME_CODE)]
  else if analyze_button && negb genai_configured
  then [Call st_error (Fixed NOT_CONFIGURED)]
  else [].

(** A value of the secrets file.  It is a string or another TOML value (a
    number, a boolean, a date, an array, a table); of the latter the
    script uses the truth value only, before handing it to the library. *)
Inductive toml_value : Type :=
| TomlStr (s : str)
| TomlOther (truth : bool).

Definition value_truthy (v : toml_value) : bool :=
  match v with
  | TomlStr s => truthy (Some s)
  | TomlOther truth => truth
  end.

(** What the lookup of the key in the Streamlit secrets comes to: a value,
    or one of the two exceptions line 11 catches. *)
Inductive secret : Type :=
| SecretFound (v : toml_value)
| SecretMissing.

(** Lines 8-25: the calls made and the final [genai_configured].
    [environ] is the environment variable, [configure key] the exception
    of lines 19-20, if any. *)
Definition configure_app (secrets : secret) (environ : option str)
    (configure : toml_value -> option py_exn) : list call * bool :=
  let '(GOOGLE_API_KEY, ev) :=
    match secrets with
    | SecretFound v => (Some v, [])
    | SecretMissing =>
        (option_map TomlStr environ,
         if negb (truthy environ)
         then [Call st_warning (Fixed KEY_NOT_FOUND)] else [])
    end in
  match GOOGLE_API_KEY with
  | Some key =>
      if value_truthy key then
        match configure key with
        | None => (ev, true)
        | Some e => (ev ++ [Call st_error (About e)], false)
        end
      else (ev, false)
  | None => (ev, false)
  end.

Definition is_text_area (c : call) : bool :=
  match c with Call st_text_area _ => true | _ => false end.

(* ================================================================== *)
(** * The body of [parse_ai_response] on the interpreter's memory *)
(* ================================================================== *)

(** Above, the dictionary [sections] is a value.  Here the body is read as
    Python runs it: the dictionary is an object created by line 36 and
    updated in place through a reference, next to the objects and the
    global variables that exist when the function is called. *)

Module Interp.

(** The global variables of the module, assigned by lines 8-25; [model]
    tells whether line 20 has bound the name. *)
Record module_globals := {
  GOOGLE_API_KEY : option toml_value;
  genai_configured : bool;
  model : bool
}.

(** The memory: the globals and the dictionaries created so far.  A
    reference is an index in the list of objects. *)
Record memory := {
  globals : module_globals;
  objects : list sections
}.

Definition ref := nat.

Inductive key : Type :=
| KEY_error_details
| KEY_corrected_code
| KEY_suggestions.

Definition get_field (k : key) (d : sections) : option str :=
  match k with
  | KEY_error_details => error_details d
  | KEY_corrected_code => corrected_code d
  | KEY_suggestions => suggestions d
  end.

Definition set_field (k : key) (v : str) (d : sections) : sections :=
  match k with
  | KEY_error_details =>
      {| error_details := Some v;
         corrected_code := corrected_code d;
         suggestions := suggestions d |}
  | KEY_corrected_code =>
      {| error_details := error_details d;
         corrected_code := Some v;
         suggestions := suggestions d |}
  | KEY_suggestions =>
      {| error_details := error_details d;
         corrected_code := corrected_code d;
         suggestions := Some v |}
  end.

Fixpoint update {A} (n : nat) (f : A -> A) (l : list A) : list A :=
  match l, n with
  | [], _ => []
  | x :: l', 0 => f x :: l'
  | x :: l', S n' => x :: update n' f l'
  end.

(** A piece of the body: from a memory, a value or an exception, and the
    memory it leaves. *)
Definition M (A : Type) : Type := memory -> result A * memory.

Definition ret {A} (a : A) : M A := fun mu => (Ok a, mu).

Definition lift {A} (x : result A) : M A := fun mu => (x, mu).

Definition mbind {A B} (x : M A) (f : A -> M B) : M B :=
  fun mu =>
    match x mu with
    | (Ok a, mu') => f a mu'
    | (Raise e, mu') => (Raise e, mu')
    end.

Notation "x <-- c ;; k" := (mbind c (fun x => k))
  (at level 61, c at next level, right associativity).
Notation "c >>> k" := (mbind c (fun _ => k))
  (at level 61, right associativity).

(** [{...}]: a new dictionary, and the reference to it. *)
Definition new_dict (d : sections) : M ref :=
  fun mu =>
    (Ok (length (objects mu)),
     {| globals := globals mu; objects := objects mu ++ [d] |}).

(** [sections[k]].  A reference the body holds is that of a created
    object, so the default is never read. *)
Definition getitem (r : ref) (k : key) : M (option str) :=
  fun mu => (Ok (get_field k (nth r (objects mu) no_sections)), mu).

(** [sections[k] = v] *)
Definition setitem (r : ref) (k : key) (v : str) : M unit :=
  fun mu =>
    (Ok tt,
     {| globals := globals mu;
        objects := update r (set_field k v) (objects mu) |}).

(** Lines 43-56. *)
Definition extract_error_details (response_text : str) (sections : ref)
    (parsing_successful : bool) : M bool :=
  let error_match := search error_re response_text DOTALL_IGNORECASE in
  match error_match with
  | Some m =>
      v <-- lift (group1_strip m) ;;
      setitem sections KEY_error_details v >>>
      ret parsing_successful
  | None =>
      (if contains (py "error details") (lower response_text)
       then setitem sections KEY_error_details MSG_ERROR_DETAILS
       else ret tt) >>>
      ret false
  end.

(** Lines 58-83. *)
Definition extract_corrected_code (response_text : str) (sections : ref)
    (parsing_successful : bool) : M bool :=
  let corrected_code_heading_match :=
    search heading_re response_text IGNORECASE_only in
  match corrected_code_heading_match with
  | Some hm =>
      let search_start_index := m_end hm in
      let code_block_match :=
        search code_block_re (slice_from search_start_index response_text)
               DOTALL_only in
      match code_block_match with
      | Some m =>
          v <-- lift (group1_strip m) ;;
          setitem sections KEY_corrected_code v >>>
          ret parsing_successful
      | None =>
          (if contains (py "corrected code") (lower response_text)
           then setitem sections KEY_corrected_code MSG_NO_BLOCK
           else ret tt) >>>
          ret false
      end
  | None =>
      (if contains (py "corrected code") (lower response_text)
       then setitem sections KEY_corrected_code MSG_NO_HEADING
       else ret tt) >>>
      ret false
  end.

(** Lines 85-106. *)
Definition extract_suggestions (response_text : str) (sections : ref)
    (parsing_successful : bool) : M bool :=
  let suggestions_match :=
    search suggestions_re response_text DOTALL_IGNORECASE in
  match suggestions_match with
  | Some m =>
      v <-- lift (group1_strip m) ;;
      setitem sections KEY_suggestions v >>>
      (s <-- getitem sections KEY_suggestions ;;
       if negb (truthy s)
       then setitem sections KEY_suggestions MSG_NO_SUGGESTIONS
       else ret tt) >>>
      ret parsing_successful
  | None =>
      (if contains (py "suggestions") (lower response_text)
       then setitem sections KEY_suggestions MSG_SUGGESTIONS
       else ret tt) >>>
      ret parsing_successful
  end.

(** Lines 108-114; [or] reads its second operand only when the first is
    false. *)
Definition final_check (response_text : str) (sections : ref)
    (parsing_successful : bool) : M bool :=
  e <-- getitem sections KEY_error_details ;;
  missing <-- (if is_None e then ret true
               else c <-- getitem sections KEY_corrected_code ;;
                    ret (is_None c)) ;;
  if missing then
    if contains (py "error details") (lower response_text)
       || contains (py "corrected code") (lower response_text)
    then ret false else ret parsing_successful
  else ret parsing_successful.

(** Lines 117-119; [and] reads its next operand only when the ones before
    are true. *)
Definition nothing_extracted_check (response_text : str) (sections : ref)
    (parsing_successful : bool) : M bool :=
  nothing <--
    (if truthy (Some response_text) then
       e <-- getitem sections KEY_error_details ;;
       if negb (truthy e) then
         c <-- getitem sections KEY_corrected_code ;;
         if negb (truthy c) then
           s <-- getitem sections KEY_suggestions ;;
           ret (negb (truthy s))
         else ret false
       else ret false
     else ret false) ;;
  if nothing then ret false else ret parsing_successful.

(** [parse_ai_response(response_text)]: the reference to the dictionary
    and the flag. *)
Definition parse_ai_response (response_text : str) : M (ref * bool) :=
  sections <-- new_dict {| error_details := None;
                           corrected_code := None;
                           suggestions := None |} ;;
  parsing_successful <-- ret true ;;
  parsing_successful <--
    extract_error_details response_text sections parsing_successful ;;
  parsing_successful <--
    extract_corrected_code response_text sections parsing_successful ;;
  parsing_successful <--
    extract_suggestions response_text sections parsing_successful ;;
  parsing_successful <--
    final_check response_text sections parsing_successful ;;
  parsing_successful <--
    nothing_extracted_check response_text sections parsing_successful ;;
  ret (sections, parsing_successful).

(** The memory [mu] with one more object, [d]. *)
Definition with_object (d : sections) (mu : memory) : memory :=
  {| globals := globals mu; objects := objects mu ++ [d] |}.

End Interp.

(* ================================================================== *)
(** * Facts about strings *)
(* ================================================================== *)

Lemma find_Some_starts (ci : bool) (p : str) :
  forall s n, find ci p s = Some n -> starts ci p (skipn n s) = true.
Proof.
  induction s as [|x s IH]; intros n H; simpl in H.
  - destruct (starts ci p []) eqn:E; [|discriminate].
    injection H as <-. exact E.
  - destruct (starts ci p (x :: s)) eqn:E.
    + injection H as <-. exact E.
    + destruct (find ci p s) as [m|] eqn:F; [|discriminate].
      injection H as <-. simpl. now apply IH.
Qed.

Lemma find_Some_before (ci : bool) (p : str) :
  forall s n j, find ci p s = Some n -> j < n ->
                starts ci p (skipn j s) = false.
Proof.
  induction s as [|x s IH]; intros n j H Hj; simpl in H.
  - destruct (starts ci p []); [injection H as <-; lia | discriminate].
  - destruct (starts ci p (x :: s)) eqn:E.
    + injection H as <-. lia.
    + destruct (find ci p s) as [m|] eqn:F; [|discriminate].
      injection H as <-. destruct j as [|j]; [exact E|].
      simpl. apply IH with (n := m); [reflexivity | lia].
Qed.

Lemma find_None_starts (ci : bool) (p : str) :
  forall s j, find ci p s = None -> starts ci p (skipn j s) = false.
Proof.
  induction s as [|x s IH]; intros j H; simpl in H.
  - destruct (starts ci p []) eqn:E; [discriminate|].
    now destruct j.
  - destruct (starts ci p (x :: s)) eqn:E; [discriminate|].
    destruct (find ci p s) eqn:F; [discriminate|].
    destruct j as [|j]; [exact E|]. simpl. now apply IH.
Qed.

Lemma find_app_skip (ci : bool) (p : str) :
  forall a s n, find ci p (a ++ s) = Some (length a + n) ->
                find ci p s = Some n.
Proof.
  induction a as [|x a IH]; intros s n H; [exact H|].
  simpl in H. destruct (starts ci p (x :: a ++ s)); [discriminate|].
  destruct (find ci p (a ++ s)) as [m|] eqn:F; [|discriminate].
  injection H as ->. now apply IH.
Qed.

Lemma skipn_app_length {T} (a b : list T) : skipn (length a) (a ++ b) = b.
Proof. induction a; simpl; auto. Qed.

Lemma skipn_app_plus {T} (a b : list T) (n : nat) :
  skipn (length a + n) (a ++ b) = skipn n b.
Proof. induction a; simpl; auto. Qed.

Lemma skipn_app_le {T} (a b : list T) (n : nat) :
  n <= length a -> skipn n (a ++ b) = skipn n a ++ b.
Proof.
  revert n; induction a as [|x a IH]; intros [|n] H; simpl in *; auto; try lia.
  apply IH. lia.
Qed.

Lemma firstn_app_length {T} (a b : list T) : firstn (length a) (a ++ b) = a.
Proof. induction a; simpl; congruence. Qed.

(* ================================================================== *)
(** * Equations of the matcher *)
(* ================================================================== *)

Section Matcher.
Context {A : Type} (fl : flags).
Implicit Types (s t : str) (g : option str) (k : cont A).

Lemma rmatch_Text (h : str) :
  forall s g k,
    rmatch fl (Text h) s g k =
    if starts (IGNORECASE fl) h s then k (skipn (length h) s) g else None.
Proof.
  induction h as [|c h IH]; intros s g k; [reflexivity|].
  destruct s as [|x s]; [reflexivity|]. simpl.
  destruct (eq_char (IGNORECASE fl) c x); simpl; [apply IH | reflexivity].
Qed.

Lemma rmatch_Cat (r1 r2 : regex) s g k :
  rmatch fl (Cat r1 r2) s g k =
  rmatch fl r1 s g (fun s' g' => rmatch fl r2 s' g' k).
Proof. reflexivity. Qed.

Lemma rmatch_Star_nil (a : atom) g k : rmatch fl (Star a) [] g k = k [] g.
Proof. reflexivity. Qed.

Lemma rmatch_Star_cons (a : atom) x t g k :
  rmatch fl (Star a) (x :: t) g k =
  if atom_matches fl a x
  then orelse (rmatch fl (Star a) t g k) (k (x :: t) g)
  else k (x :: t) g.
Proof. reflexivity. Qed.

Lemma rmatch_StarLazy_nil (a : atom) g k :
  rmatch fl (StarLazy a) [] g k = k [] g.
Proof. reflexivity. Qed.

Lemma rmatch_StarLazy_cons (a : atom) x t g k :
  rmatch fl (StarLazy a) (x :: t) g k =
  if atom_matches fl a x
  then orelse (k (x :: t) g) (rmatch fl (StarLazy a) t g k)
  else k (x :: t) g.
Proof. reflexivity. Qed.

(** The greedy repetition over a run [w] of matching characters that the
    rest of the pattern accepts right after the run. *)
Lemma rmatch_Star_run (a : atom) (w : str) :
  forall s g k (m : A),
    forallb (atom_matches fl a) w = true ->
    match s with [] => true | x :: _ => negb (atom_matches fl a x) end = true ->
    k s g = Some m ->
    rmatch fl (Star a) (w ++ s) g k = Some m.
Proof.
  induction w as [|x w IH]; intros s g k m Hw Hs Hk; simpl app.
  - destruct s as [|x s]; [exact Hk|].
    rewrite rmatch_Star_cons. apply negb_true_iff in Hs. now rewrite Hs.
  - simpl in Hw. apply andb_true_iff in Hw as [Hx Hw].
    rewrite rmatch_Star_cons, Hx, (IH s g k m); auto.
Qed.

(** The lazy repetition stops at the first place the rest of the pattern
    accepts. *)
Lemma rmatch_StarLazy_first (a : atom) (u : str) :
  forall s g k (m : A),
    forallb (atom_matches fl a) u = true ->
    (forall j, j < length u -> k (skipn j u ++ s) g = None) ->
    k s g = Some m ->
    rmatch fl (StarLazy a) (u ++ s) g k = Some m.
Proof.
  induction u as [|x u IH]; intros s g k m Hu Hb Hk; simpl app.
  - destruct s as [|x s]; [exact Hk|].
    rewrite rmatch_StarLazy_cons, Hk. now destruct (atom_matches fl a x).
  - simpl in Hu. apply andb_true_iff in Hu as [Hx Hu].
    rewrite rmatch_StarLazy_cons, Hx.
    pose proof (Hb 0 ltac:(simpl; lia)) as H0. simpl in H0. rewrite H0.
    simpl. apply IH; auto. intros j Hj. apply (Hb (S j)). simpl. lia.
Qed.

End Matcher.

Section Search.
Context (fl : flags).

Lemma match_here_Text (h : str) (r : regex) (pos : nat) (s : str) :
  match_here fl (Cat (Text h) r) pos s =
  if starts (IGNORECASE fl) h s
  then rmatch fl r (skipn (length h) s) None
         (fun s' g => Some {| m_start := pos;
                              m_end := pos + (length s - length s');
                              group1 := g |})
  else None.
Proof. unfold match_here. now rewrite rmatch_Cat, rmatch_Text. Qed.

(** [search] passes over every position before the first occurrence of the
    text the pattern begins with. *)
Lemma search_from_skip (h : str) (r : regex) :
  forall n s pos,
    find (IGNORECASE fl) h s = Some n ->
    search_from fl (Cat (Text h) r) pos s =
    search_from fl (Cat (Text h) r) (pos + n) (skipn n s).
Proof.
  induction n as [|n IH]; intros s pos H.
  - now rewrite Nat.add_0_r.
  - destruct s as [|x s]; simpl in H.
    + destruct (starts (IGNORECASE fl) h []); discriminate.
    + destruct (starts (IGNORECASE fl) h (x :: s)) eqn:E; [discriminate|].
      destruct (find (IGNORECASE fl) h s) as [m|] eqn:F; [|discriminate].
      injection H as ->.
      cbn [search_from]. rewrite match_here_Text, E.
      rewrite (IH s (S pos) F). cbn [skipn]. f_equal. lia.
Qed.

Lemma search_from_absent (h : str) (r : regex) :
  forall s pos,
    find (IGNORECASE fl) h s = None ->
    search_from fl (Cat (Text h) r) pos s = None.
Proof.
  induction s as [|x s IH]; intros pos H; simpl in H.
  - destruct (starts (IGNORECASE fl) h []) eqn:E; [discriminate|].
    cbn [search_from]. now rewrite match_here_Text, E.
  - destruct (starts (IGNORECASE fl) h (x :: s)) eqn:E; [discriminate|].
    destruct (find (IGNORECASE fl) h s) eqn:F; [discriminate|].
    cbn [search_from]. rewrite match_here_Text, E. now apply IH.
Qed.

End Search.

(* ================================================================== *)
(** * Trimming *)
(* ================================================================== *)

Lemma dropwhile_split (p : ascii -> bool) (s : str) :
  exists w, s = w ++ dropwhile p s /\ forallb p w = true.
Proof.
  induction s as [|x s [w [E W]]]; simpl.
  - now exists [].
  - destruct (p x) eqn:P.
    + exists (x :: w). simpl. rewrite P, W. now rewrite <- E.
    + now exists [].
Qed.

Lemma dropwhile_head (p : ascii -> bool) (s : str) x t :
  dropwhile p s = x :: t -> p x = false.
Proof.
  induction s as [|y s IH]; simpl; [discriminate|].
  destruct (p y) eqn:P; [exact IH|]. intros E. injection E as -> _. exact P.
Qed.

Lemma dropwhile_stop (p : ascii -> bool) (s : str) :
  match s with [] => true | x :: _ => negb (p x) end = true ->
  dropwhile p s = s.
Proof.
  destruct s as [|x s]; simpl; [reflexivity|].
  intros H. apply negb_true_iff in H. now rewrite H.
Qed.

Lemma dropwhile_run (p : ascii -> bool) (w s : str) :
  forallb p w = true -> dropwhile p (w ++ s) = dropwhile p s.
Proof.
  induction w as [|x w IH]; simpl; [reflexivity|].
  intros H. apply andb_true_iff in H as [-> H]. now apply IH.
Qed.

Lemma dropwhile_idem (p : ascii -> bool) (s : str) :
  dropwhile p (dropwhile p s) = dropwhile p s.
Proof.
  induction s as [|x s IH]; simpl; [reflexivity|].
  destruct (p x) eqn:P; [exact IH|]. simpl. now rewrite P.
Qed.

Lemma dropwhile_all (p : ascii -> bool) (s : str) :
  forallb p s = true -> dropwhile p s = [].
Proof.
  induction s as [|x s IH]; simpl; [reflexivity|].
  intros H. apply andb_true_iff in H as [-> H]. now apply IH.
Qed.

Lemma strip_lstrip (s : str) : strip (lstrip s) = strip s.
Proof. unfold strip, lstrip. now rewrite dropwhile_idem. Qed.

(** A string is its leading blanks followed by its left-trimmed part, which
    is empty or begins with a character that is not a blank. *)
Lemma lstrip_split (s : str) :
  exists w, s = w ++ lstrip s /\ forallb isspace w = true /\
            match lstrip s with [] => true | x :: _ => negb (isspace x) end
            = true.
Proof.
  destruct (dropwhile_split isspace s) as [w [E W]].
  exists w. repeat split; auto.
  unfold lstrip. destruct (dropwhile isspace s) as [|x t] eqn:D; [reflexivity|].
  apply dropwhile_head in D. now rewrite D.
Qed.

(** A string is its right-trimmed part followed by its trailing blanks; the
    right-trimmed part is empty or ends with a character that is not a
    blank. *)
Lemma rstrip_split (s : str) :
  exists w, s = rstrip s ++ w /\ forallb isspace w = true /\
            (rstrip s = [] \/
             exists u y, rstrip s = u ++ [y] /\ isspace y = false).
Proof.
  destruct (dropwhile_split isspace (rev s)) as [w [E W]].
  exists (rev w). repeat split.
  - unfold rstrip. rewrite <- rev_app_distr, <- E. now rewrite rev_involutive.
  - rewrite forallb_forall in *. intros x Hx. apply W. now apply in_rev.
  - unfold rstrip. destruct (dropwhile isspace (rev s)) as [|y t] eqn:D.
    + now left.
    + right. exists (rev t), y. split; [reflexivity|].
      now apply dropwhile_head in D.
Qed.

Lemma rstrip_head (s : str) x :
  isspace x = false -> exists t', rstrip (x :: s) = x :: t'.
Proof.
  intros Hx. unfold rstrip. simpl.
  destruct (dropwhile_split isspace (rev s ++ [x])) as [w [E W]].
  destruct (dropwhile isspace (rev s ++ [x])) as [|y d] eqn:D.
  - rewrite app_nil_r in E. rewrite <- E in W.
    rewrite forallb_app in W. simpl in W. rewrite Hx in W.
    rewrite andb_false_r in W. discriminate.
  - apply (f_equal (@rev ascii)) in E. rewrite !rev_app_distr in E.
    simpl in E. simpl.
    destruct (rev d) as [|z d'] eqn:Rd; simpl in E; injection E as -> _;
      simpl; now eexists.
Qed.

(** The shape of a string around its trimmed part. *)
Lemma strip_split (s : str) :
  exists w1 w2,
    s = w1 ++ strip s ++ w2 /\
    forallb isspace w1 = true /\ forallb isspace w2 = true /\
    (strip s = [] \/
     (exists x t, strip s = x :: t /\ isspace x = false) /\
     (exists u y, strip s = u ++ [y] /\ isspace y = false)).
Proof.
  destruct (lstrip_split s) as [w1 [E1 [W1 H1]]].
  destruct (rstrip_split (lstrip s)) as [w2 [E2 [W2 H2]]].
  exists w1, w2. repeat split; auto.
  - unfold strip. now rewrite <- E2.
  - destruct H2 as [H2|H2]; [now left|]. right. split; [|exact H2].
    destruct (lstrip s) as [|x t] eqn:L.
    + destruct H2 as [u [y [H2 _]]]. exfalso.
      cbv in H2. now destruct u.
    + apply negb_true_iff in H1.
      destruct (@rstrip_head t x H1) as [t' R].
      exists x, t'. split; [|exact H1]. unfold strip. now rewrite L.
Qed.

(* ================================================================== *)
(** * More equations of the matcher *)
(* ================================================================== *)

Lemma firstn_prefix_len {T} (a b : list T) :
  firstn (length (a ++ b) - length b) (a ++ b) = a.
Proof.
  rewrite length_app.
  replace (length a + length b - length b) with (length a) by lia.
  apply firstn_app_length.
Qed.

Lemma skipn_suffix_len {T} (a b : list T) :
  skipn (length (a ++ b) - length b) (a ++ b) = b.
Proof.
  rewrite length_app.
  replace (length a + length b - length b) with (length a) by lia.
  apply skipn_app_length.
Qed.

Section MatcherMore.
Context {A : Type} (fl : flags).
Implicit Types (s t : str) (g : option str) (k : cont A).

Lemma rmatch_Star_dropwhile (a : atom) :
  forall s g k (m : A),
    k (dropwhile (atom_matches fl a) s) g = Some m ->
    rmatch fl (Star a) s g k = Some m.
Proof.
  induction s as [|x s IH]; intros g k m H; [exact H|].
  rewrite rmatch_Star_cons. simpl in H.
  destruct (atom_matches fl a x); [|exact H].
  now rewrite (IH g k m H).
Qed.

Lemma rmatch_Group1 (r : regex) s g k :
  rmatch fl (Group1 r) s g k =
  rmatch fl r s g (fun s' _ => k s' (Some (firstn (length s - length s') s))).
Proof. reflexivity. Qed.

Lemma rmatch_Opt (r : regex) s g k :
  rmatch fl (Opt r) s g k = orelse (rmatch fl r s g k) (k s g).
Proof. reflexivity. Qed.

Lemma rmatch_Alt (r1 r2 : regex) s g k :
  rmatch fl (Alt r1 r2) s g k =
  orelse (rmatch fl r1 s g k) (rmatch fl r2 s g k).
Proof. reflexivity. Qed.

Lemma rmatch_Lookahead (r : regex) s g k :
  rmatch fl (Lookahead r) s g k =
  match rmatch fl r s g (fun _ g' => Some g') with
  | Some g' => k s g'
  | None => None
  end.
Proof. reflexivity. Qed.

Lemma rmatch_EndOfString s g k :
  rmatch fl EndOfString s g k =
  match s with [] => k s g | _ :: _ => None end.
Proof. reflexivity. Qed.

Lemma rmatch_Atom (a : atom) x s g k :
  rmatch fl (Atom a) (x :: s) g k =
  if atom_matches fl a x then k s g else None.
Proof. reflexivity. Qed.

End MatcherMore.

(* ================================================================== *)
(** * The pattern of the Error Details section *)
(* ================================================================== *)

Lemma sharp_not_space (x : ascii) :
  eq_char true "#" x = true -> isspace x = false.
Proof.
  destruct x as [[] [] [] [] [] [] [] []]; vm_compute; congruence.
Qed.

Lemma at_boundary_head (s : str) :
  at_boundary s = true ->
  match s with [] => true | x :: _ => negb (isspace x) end = true.
Proof.
  destruct s as [|x s]; [reflexivity|]. unfold at_boundary.
  rewrite orb_false_r. intros H. apply negb_true_iff, sharp_not_space.
  apply orb_true_iff in H as [H|H]; simpl in H;
    apply andb_true_iff in H as [H _]; exact H.
Qed.

Section ErrorPattern.
Context {A : Type}.
Implicit Types (s t : str) (g : option str) (k : cont A).

Lemma rmatch_boundary s g k :
  rmatch DOTALL_IGNORECASE boundary_re s g k =
  if at_boundary s then k s g else None.
Proof.
  unfold boundary_re, at_boundary.
  rewrite rmatch_Lookahead, !rmatch_Alt, !rmatch_Text, rmatch_EndOfString.
  change (IGNORECASE DOTALL_IGNORECASE) with true.
  destruct (starts true H_CODE s); [reflexivity|].
  destruct (starts true H_SUGG s); [reflexivity|].
  destruct s; reflexivity.
Qed.

(** After leading blanks, at a boundary, the tail of the pattern hands
    over to what follows. *)
Lemma error_tail_some (w t : str) g k (m : A) :
  forallb isspace w = true ->
  at_boundary t = true ->
  k t g = Some m ->
  rmatch DOTALL_IGNORECASE error_tail_re (w ++ t) g k = Some m.
Proof.
  intros W B K. unfold error_tail_re. rewrite rmatch_Cat.
  apply rmatch_Star_dropwhile.
  change (atom_matches DOTALL_IGNORECASE Space) with isspace.
  rewrite dropwhile_run by exact W.
  rewrite dropwhile_stop by now apply at_boundary_head.
  now rewrite rmatch_boundary, B.
Qed.


End ErrorPattern.




(* ================================================================== *)
(** * The other three patterns *)
(* ================================================================== *)

Lemma search_from_hit (fl : flags) (r : regex) (pos : nat) (s : str) m :
  match_here fl r pos s = Some m -> search_from fl r pos s = Some m.
Proof. intros H. destruct s; cbn [search_from]; now rewrite H. Qed.

Lemma skipn_suffix {T} (a s' : list T) :
  skipn (length (a ++ s') - length s') (a ++ s') = s'.
Proof. apply skipn_suffix_len. Qed.

Lemma dropwhile_Space (fl : flags) (s : str) :
  dropwhile (atom_matches fl Space) s = lstrip s.
Proof. reflexivity. Qed.

Lemma lstrip_suffix (s : str) (n : nat) :
  exists a, s = a ++ lstrip (skipn n s).
Proof.
  destruct (lstrip_split (skipn n s)) as [w [E _]].
  exists (firstn n s ++ w). rewrite <- app_assoc, <- E.
  now rewrite firstn_skipn.
Qed.

(** [re.search] with [heading_re]: the match begins at the first
    [## Corrected Code] heading and ends after the blanks that follow it. *)
Lemma heading_search_found (text : str) (n : nat) :
  find true H_CODE text = Some n ->
  exists hm,
    search heading_re text IGNORECASE_only = Some hm /\
    slice_from (m_end hm) text = lstrip (skipn (n + length H_CODE) text).
Proof.
  intros F. unfold search, heading_re.
  rewrite (search_from_skip IGNORECASE_only H_CODE (Star Space) _ 0 F).
  pose proof (find_Some_starts _ _ _ F) as S0.
  set (s := skipn n text) in *.
  set (s' := lstrip (skipn (length H_CODE) s)).
  exists {| m_start := 0 + n;
            m_end := 0 + n + (length s - length s');
            group1 := None |}.
  split.
  - apply search_from_hit. rewrite match_here_Text.
    change (IGNORECASE IGNORECASE_only) with true. rewrite S0.
    apply rmatch_Star_dropwhile. subst s'. unfold lstrip. reflexivity.
  - cbn [m_end]. unfold slice_from.
    replace (0 + n + (length s - length s'))
      with ((length s - length s') + n) by lia.
    rewrite <- skipn_skipn. fold s.
    replace (n + length H_CODE) with (length H_CODE + n) by lia.
    rewrite <- skipn_skipn. fold s. fold s'.
    destruct (lstrip_suffix s (length H_CODE)) as [a E]. fold s' in E.
    clearbody s'. clearbody s. rewrite E. apply skipn_suffix.
Qed.

Lemma heading_search_absent (text : str) :
  find true H_CODE text = None ->
  search heading_re text IGNORECASE_only = None.
Proof. intros F. now apply search_from_absent. Qed.

Lemma error_search_absent (text : str) :
  find true H_ERROR text = None ->
  search error_re text DOTALL_IGNORECASE = None.
Proof.
  intros F. change error_re with (Cat (Text H_ERROR) error_body_re).
  now apply search_from_absent.
Qed.

Lemma suggestions_search_absent (text : str) :
  find true H_SUGG text = None ->
  search suggestions_re text DOTALL_IGNORECASE = None.
Proof. intros F. now apply search_from_absent. Qed.

(** [re.search] with [suggestions_re]: group 1 is everything after the
    first [## Suggestions] heading and the blanks that follow it. *)
Lemma suggestions_search_found (text : str) (n : nat) :
  find true H_SUGG text = Some n ->
  exists m,
    search suggestions_re text DOTALL_IGNORECASE = Some m /\
    group1 m = Some (lstrip (skipn (n + length H_SUGG) text)).
Proof.
  intros F. unfold search, suggestions_re.
  rewrite (search_from_skip DOTALL_IGNORECASE H_SUGG _ _ 0 F).
  pose proof (find_Some_starts _ _ _ F) as S0.
  replace (n + length H_SUGG) with (length H_SUGG + n) by lia.
  rewrite <- skipn_skipn.
  remember (skipn n text) as s eqn:Hs. clear Hs.
  remember (lstrip (skipn (length H_SUGG) s)) as s' eqn:Hs'.
  exists {| m_start := 0 + n;
            m_end := 0 + n + (length s - 0);
            group1 := Some s' |}.
  split; [|reflexivity].
  apply search_from_hit. rewrite match_here_Text.
  change (IGNORECASE DOTALL_IGNORECASE) with true. rewrite S0.
  rewrite rmatch_Cat. apply rmatch_Star_dropwhile.
  rewrite dropwhile_Space, <- Hs'.
  rewrite rmatch_Group1. apply rmatch_Star_dropwhile.
  rewrite dropwhile_all by (clear; induction s'; simpl; auto).
  cbn [length]. rewrite !Nat.sub_0_r, firstn_all. reflexivity.
Qed.

(** [re.search] with [code_block_re] on a text whose first fence marker
    opens a block with a tag of letters, an interior [c] and the first
    closing fence after the interior: group 1 is the interior. *)
Lemma code_block_search_capture (mid tag c post : str) :
  find false FENCE (mid ++ FENCE ++ tag ++ LF :: c ++ CLOSING ++ post)
    = Some (length mid) ->
  forallb isalpha_ascii tag = true ->
  find false CLOSING (c ++ CLOSING ++ post) = Some (length c) ->
  exists m,
    search code_block_re
           (mid ++ FENCE ++ tag ++ LF :: c ++ CLOSING ++ post) DOTALL_only
      = Some m /\
    group1 m = Some c.
Proof.
  intros F T C. unfold search, code_block_re.
  rewrite (search_from_skip DOTALL_only FENCE _ _ 0 F).
  pose proof (find_Some_starts _ _ _ F) as S0.
  rewrite skipn_app_length in *.
  eexists. split.
  - apply search_from_hit. rewrite match_here_Text.
    cbn [IGNORECASE DOTALL_only]. rewrite S0, skipn_app_length.
    rewrite rmatch_Cat, rmatch_Opt, rmatch_Cat.
    erewrite rmatch_Star_run; [reflexivity | exact T | reflexivity |].
    rewrite rmatch_Atom.
    change (atom_matches DOTALL_only (Chr LF) LF) with true. cbv iota.
    rewrite rmatch_Cat, rmatch_Group1.
    apply rmatch_StarLazy_first.
    + clear. induction c; simpl; auto.
    + intros j Hj. rewrite rmatch_Text. cbn [IGNORECASE DOTALL_only].
      rewrite <- skipn_app_le by lia.
      now rewrite (find_Some_before _ _ _ C Hj).
    + rewrite rmatch_Text. cbn [IGNORECASE DOTALL_only].
      pose proof (find_Some_starts _ _ _ C) as S1.
      rewrite skipn_app_length in S1. rewrite S1. reflexivity.
  - cbn [group1]. now rewrite firstn_prefix_len.
Qed.

(* ================================================================== *)
(** * Group 1 takes part in every match of the three capturing patterns *)
(* ================================================================== *)

Lemma orelse_Some {A} (x y : option A) (m : A) :
  orelse x y = Some m -> x = Some m \/ y = Some m.
Proof. destruct x; simpl; auto. Qed.

Lemma rmatch_keeps_group (fl : flags) (r : regex) :
  forall A (Q : A -> Prop) (k : cont A),
    good Q k -> good Q (fun s g => rmatch fl r s g k).
Proof.
  induction r as [|a|r1 IH1 r2 IH2|r1 IH1 r2 IH2|a|a|r1 IH1|r1 IH1|r1 IH1|];
    intros A Q k Hk s g m Hg H.
  - exact (Hk s g m Hg H).
  - destruct s as [|x s]; [discriminate|]. rewrite rmatch_Atom in H.
    destruct (atom_matches fl a x); [|discriminate]. exact (Hk _ _ _ Hg H).
  - rewrite rmatch_Cat in H.
    exact (IH1 A Q _ (IH2 A Q k Hk) s g m Hg H).
  - rewrite rmatch_Alt in H. apply orelse_Some in H as [H|H].
    + exact (IH1 A Q k Hk s g m Hg H).
    + exact (IH2 A Q k Hk s g m Hg H).
  - induction s as [|x s IHs]; [exact (Hk _ _ _ Hg H)|].
    rewrite rmatch_Star_cons in H.
    destruct (atom_matches fl a x); [|exact (Hk _ _ _ Hg H)].
    apply orelse_Some in H as [H|H]; [now apply IHs | exact (Hk _ _ _ Hg H)].
  - induction s as [|x s IHs]; [exact (Hk _ _ _ Hg H)|].
    rewrite rmatch_StarLazy_cons in H.
    destruct (atom_matches fl a x); [|exact (Hk _ _ _ Hg H)].
    apply orelse_Some in H as [H|H]; [exact (Hk _ _ _ Hg H) | now apply IHs].
  - rewrite rmatch_Opt in H. apply orelse_Some in H as [H|H].
    + exact (IH1 A Q k Hk s g m Hg H).
    + exact (Hk _ _ _ Hg H).
  - rewrite rmatch_Group1 in H. revert H. apply (IH1 A Q); [|exact Hg].
    intros s' g' m' _ H'. eapply Hk; [|exact H']. discriminate.
  - rewrite rmatch_Lookahead in H.
    destruct (rmatch fl r1 s g (fun _ g' => Some g')) as [g'|] eqn:E;
      [|discriminate].
    apply (Hk s g' m); [|exact H].
    apply (IH1 _ (fun o : option str => o <> None)
               (fun _ g' => Some g')) with (s := s) (g := g); auto.
    intros ? ? ? Hn Hs. now injection Hs as <-.
  - rewrite rmatch_EndOfString in H.
    destruct s; [exact (Hk _ _ _ Hg H) | discriminate].
Qed.

Lemma rmatch_very_good (fl : flags) (r : regex) :
  forall A (Q : A -> Prop) (k : cont A),
    very_good Q k -> very_good Q (fun s g => rmatch fl r s g k).
Proof.
  induction r as [|a|r1 IH1 r2 IH2|r1 IH1 r2 IH2|a|a|r1 IH1|r1 IH1|r1 IH1|];
    intros A Q k Hk s g m H.
  - exact (Hk s g m H).
  - destruct s as [|x s]; [discriminate|]. rewrite rmatch_Atom in H.
    destruct (atom_matches fl a x); [|discriminate]. exact (Hk _ _ _ H).
  - rewrite rmatch_Cat in H. exact (IH1 A Q _ (IH2 A Q k Hk) s g m H).
  - rewrite rmatch_Alt in H. apply orelse_Some in H as [H|H].
    + exact (IH1 A Q k Hk s g m H).
    + exact (IH2 A Q k Hk s g m H).
  - induction s as [|x s IHs]; [exact (Hk _ _ _ H)|].
    rewrite rmatch_Star_cons in H.
    destruct (atom_matches fl a x); [|exact (Hk _ _ _ H)].
    apply orelse_Some in H as [H|H]; [now apply IHs | exact (Hk _ _ _ H)].
  - induction s as [|x s IHs]; [exact (Hk _ _ _ H)|].
    rewrite rmatch_StarLazy_cons in H.
    destruct (atom_matches fl a x); [|exact (Hk _ _ _ H)].
    apply orelse_Some in H as [H|H]; [exact (Hk _ _ _ H) | now apply IHs].
  - rewrite rmatch_Opt in H. apply orelse_Some in H as [H|H].
    + exact (IH1 A Q k Hk s g m H).
    + exact (Hk _ _ _ H).
  - rewrite rmatch_Group1 in H. revert H. apply (IH1 A Q).
    intros s' g' m' H'. exact (Hk _ _ _ H').
  - rewrite rmatch_Lookahead in H.
    destruct (rmatch fl r1 s g (fun _ g' => Some g')) as [g'|];
      [exact (Hk _ _ _ H) | discriminate].
  - rewrite rmatch_EndOfString in H.
    destruct s; [exact (Hk _ _ _ H) | discriminate].
Qed.

Lemma rmatch_sets_group (fl : flags) (r : regex) :
  sets_group1 r = true ->
  forall A (Q : A -> Prop) (k : cont A),
    good Q k -> very_good Q (fun s g => rmatch fl r s g k).
Proof.
  induction r as [|a|r1 IH1 r2 IH2|r1 IH1 r2 IH2|a|a|r1 IH1|r1 IH1|r1 IH1|];
    cbn [sets_group1]; intros S1 A Q k Hk s g m H; try discriminate.
  - rewrite rmatch_Cat in H. apply orb_true_iff in S1 as [S1|S1].
    + refine (IH1 S1 A Q _ _ s g m H).
      now apply rmatch_keeps_group.
    + refine (rmatch_very_good fl r1 _ s g H).
      now apply IH2.
  - apply andb_true_iff in S1 as [S1 S2].
    rewrite rmatch_Alt in H. apply orelse_Some in H as [H|H].
    + exact (IH1 S1 A Q k Hk s g m H).
    + exact (IH2 S2 A Q k Hk s g m H).
  - rewrite rmatch_Group1 in H. revert H. apply (rmatch_very_good fl r1).
    intros s' g' m' H'. eapply Hk; [|exact H']. discriminate.
  - rewrite rmatch_Lookahead in H.
    destruct (rmatch fl r1 s g (fun _ g' => Some g')) as [g'|] eqn:E;
      [|discriminate].
    apply (Hk s g' m); [|exact H].
    apply (IH1 S1 _ (fun o : option str => o <> None)
               (fun _ g' => Some g')) with (s := s) (g := g); auto.
    intros ? ? ? Hn Hs. now injection Hs as <-.
Qed.

(** A match found by [re.search] with such a pattern has its group 1
    set. *)
Lemma final_cont_good (pos n : nat) :
  good (fun m : match_obj => group1 m <> None)
       (fun s' g => Some {| m_start := pos;
                            m_end := pos + (n - length s');
                            group1 := g |}).
Proof. intros s' g' m0 Hg Hm. injection Hm as <-. exact Hg. Qed.

Lemma search_group1 (fl : flags) (r : regex) (text : str) (m : match_obj) :
  sets_group1 r = true ->
  search r text fl = Some m ->
  group1 m <> None.
Proof.
  intros S1. unfold search. generalize 0 as pos.
  induction text as [|x text IH]; intros pos H; cbn [search_from] in H.
  - destruct (match_here fl r pos []) as [m'|] eqn:E; [|discriminate].
    injection H as <-. unfold match_here in E.
    exact (@rmatch_sets_group fl r S1 _ _ _ (@final_cont_good pos _) _ _ _ E).
  - destruct (match_here fl r pos (x :: text)) as [m'|] eqn:E.
    + injection H as <-. unfold match_here in E.
      exact (@rmatch_sets_group fl r S1 _ _ _ (@final_cont_good pos _) _ _ _ E).
    + exact (IH _ H).
Qed.

Lemma error_re_sets_group1 : sets_group1 error_re = true.
Proof. reflexivity. Qed.

Lemma code_block_re_sets_group1 : sets_group1 code_block_re = true.
Proof. reflexivity. Qed.

Lemma suggestions_re_sets_group1 : sets_group1 suggestions_re = true.
Proof. reflexivity. Qed.

(* ================================================================== *)
(** * The blocks of the body, case by case *)
(* ================================================================== *)


Section Blocks.
Variable response_text : str.
Variable l : locals.

Lemma extract_error_details_found (m : match_obj) (v : str) :
  search error_re response_text DOTALL_IGNORECASE = Some m ->
  group1 m = Some v ->
  extract_error_details response_text l = Ok (set_error_details (strip v) l).
Proof.
  intros E G. unfold extract_error_details, group1_strip.
  now rewrite E, G.
Qed.

Lemma extract_error_details_missing :
  search error_re response_text DOTALL_IGNORECASE = None ->
  extract_error_details response_text l =
  Ok (set_failed
        (if contains (py "error details") (lower response_text)
         then set_error_details MSG_ERROR_DETAILS l else l)).
Proof. intros E. unfold extract_error_details. now rewrite E. Qed.

Lemma extract_corrected_code_found (hm m : match_obj) (v : str) :
  search heading_re response_text IGNORECASE_only = Some hm ->
  search code_block_re (slice_from (m_end hm) response_text) DOTALL_only
    = Some m ->
  group1 m = Some v ->
  extract_corrected_code response_text l
    = Ok (set_corrected_code (strip v) l).
Proof.
  intros E1 E2 G. unfold extract_corrected_code, group1_strip.
  now rewrite E1, E2, G.
Qed.

Lemma extract_corrected_code_no_block (hm : match_obj) :
  search heading_re response_text IGNORECASE_only = Some hm ->
  search code_block_re (slice_from (m_end hm) response_text) DOTALL_only
    = None ->
  extract_corrected_code response_text l =
  Ok (set_failed
        (if contains (py "corrected code") (lower response_text)
         then set_corrected_code MSG_NO_BLOCK l else l)).
Proof. intros E1 E2. unfold extract_corrected_code. now rewrite E1, E2. Qed.

Lemma extract_corrected_code_no_heading :
  search heading_re response_text IGNORECASE_only = None ->
  extract_corrected_code response_text l =
  Ok (set_failed
        (if contains (py "corrected code") (lower response_text)
         then set_corrected_code MSG_NO_HEADING l else l)).
Proof. intros E1. unfold extract_corrected_code. now rewrite E1. Qed.

Lemma extract_suggestions_found (m : match_obj) (v : str) :
  search suggestions_re response_text DOTALL_IGNORECASE = Some m ->
  group1 m = Some v ->
  extract_suggestions response_text l =
  Ok (set_suggestions
        (match strip v with [] => MSG_NO_SUGGESTIONS | _ :: _ => strip v end)
        l).
Proof.
  intros E G. unfold extract_suggestions, group1_strip. rewrite E, G.
  unfold bind. cbn [set_suggestions secs suggestions truthy].
  now destruct (strip v).
Qed.

Lemma extract_suggestions_missing :
  search suggestions_re response_text DOTALL_IGNORECASE = None ->
  extract_suggestions response_text l =
  Ok (if contains (py "suggestions") (lower response_text)
      then set_suggestions MSG_SUGGESTIONS l else l).
Proof. intros E. unfold extract_suggestions. now rewrite E. Qed.

End Blocks.

(* ================================================================== *)
(** * What each block does to the flag and to the other fields *)
(* ================================================================== *)

Lemma error_located_nonempty (text : str) :
  error_located text = true -> truthy (Some text) = true.
Proof. destruct text; [discriminate | reflexivity]. Qed.

Lemma error_step (text : str) (l : locals) :
  exists l',
    extract_error_details text l = Ok l' /\
    parsing_successful l' = parsing_successful l && error_located text /\
    corrected_code (secs l') = corrected_code (secs l) /\
    suggestions (secs l') = suggestions (secs l) /\
    (error_located text = true -> is_None (error_details (secs l')) = false)
    /\
    (error_located text = false ->
     error_details (secs l') =
     if contains (py "error details") (lower text)
     then Some MSG_ERROR_DETAILS else error_details (secs l)).
Proof.
  unfold error_located.
  destruct (search error_re text DOTALL_IGNORECASE) as [m|] eqn:E.
  - pose proof (@search_group1 _ _ _ _ error_re_sets_group1 E) as G.
    destruct (group1 m) as [v|] eqn:Gv; [|congruence].
    rewrite (@extract_error_details_found text l m v E Gv).
    eexists. split; [reflexivity|]. cbn.
    rewrite andb_true_r. repeat split; auto. discriminate.
  - rewrite (@extract_error_details_missing text l E).
    eexists. split; [reflexivity|].
    destruct (contains (py "error details") (lower text)); cbn;
      rewrite andb_false_r; repeat split; auto; discriminate.
Qed.

Lemma code_step (text : str) (l : locals) :
  exists l',
    extract_corrected_code text l = Ok l' /\
    parsing_successful l' = parsing_successful l && code_located text /\
    error_details (secs l') = error_details (secs l) /\
    suggestions (secs l') = suggestions (secs l) /\
    (code_located text = true -> is_None (corrected_code (secs l')) = false).
Proof.
  unfold code_located.
  destruct (search heading_re text IGNORECASE_only) as [hm|] eqn:E1.
  - destruct (search code_block_re (slice_from (m_end hm) text) DOTALL_only)
      as [m|] eqn:E2.
    + pose proof (@search_group1 _ _ _ _ code_block_re_sets_group1 E2) as G.
      destruct (group1 m) as [v|] eqn:Gv; [|congruence].
      rewrite (@extract_corrected_code_found text l hm m v E1 E2 Gv).
      eexists. split; [reflexivity|]. cbn.
      rewrite andb_true_r. repeat split; auto.
    + rewrite (@extract_corrected_code_no_block text l hm E1 E2).
      eexists. split; [reflexivity|].
      destruct (contains (py "corrected code") (lower text)); cbn;
        rewrite andb_false_r; repeat split; auto; discriminate.
  - rewrite (@extract_corrected_code_no_heading text l E1).
    eexists. split; [reflexivity|].
    destruct (contains (py "corrected code") (lower text)); cbn;
      rewrite andb_false_r; repeat split; auto; discriminate.
Qed.

Lemma suggestions_step (text : str) (l : locals) :
  suggestions (secs l) = None ->
  exists l',
    extract_suggestions text l = Ok l' /\
    parsing_successful l' = parsing_successful l /\
    error_details (secs l') = error_details (secs l) /\
    corrected_code (secs l') = corrected_code (secs l) /\
    (suggestions (secs l') = None \/ truthy (suggestions (secs l')) = true) /\
    (suggestions (secs l') = None <->
     suggestions_located text = false /\
     contains (py "suggestions") (lower text) = false).
Proof.
  intros S0. unfold suggestions_located.
  destruct (search suggestions_re text DOTALL_IGNORECASE) as [m|] eqn:E.
  - pose proof (@search_group1 _ _ _ _ suggestions_re_sets_group1 E) as G.
    destruct (group1 m) as [v|] eqn:Gv; [|congruence].
    rewrite (@extract_suggestions_found text l m v E Gv).
    eexists. split; [reflexivity|]. cbn [set_suggestions secs
      parsing_successful error_details corrected_code suggestions].
    do 3 (split; [reflexivity|]).
    split; [right; now destruct (strip v)|].
    split; [discriminate | intros [? _]; discriminate].
  - rewrite (@extract_suggestions_missing text l E).
    eexists. split; [reflexivity|].
    destruct (contains (py "suggestions") (lower text)); cbn [set_suggestions
      secs parsing_successful error_details corrected_code suggestions];
      do 3 (split; [reflexivity|]).
    + split; [right; reflexivity|].
      split; [discriminate | intros [_ ?]; discriminate].
    + split; [left; exact S0|].
      split; [intros _; split; reflexivity | intros _; exact S0].
Qed.

Lemma final_check_secs (text : str) (l : locals) :
  secs (final_check text l) = secs l.
Proof.
  unfold final_check.
  destruct (is_None _ || is_None _); [|reflexivity].
  now destruct (contains _ _ || contains _ _).
Qed.

Lemma final_check_flag (text : str) (l : locals) :
  (is_None (error_details (secs l)) || is_None (corrected_code (secs l))
   = true -> parsing_successful l = false) ->
  parsing_successful (final_check text l) = parsing_successful l.
Proof.
  unfold final_check. intros H.
  destruct (is_None _ || is_None _); [|reflexivity].
  destruct (contains _ _ || contains _ _); [|reflexivity].
  cbn. now rewrite H.
Qed.

Lemma nothing_extracted_check_secs (text : str) (l : locals) :
  secs (nothing_extracted_check text l) = secs l.
Proof.
  unfold nothing_extracted_check. now destruct (_ && _ && _ && _).
Qed.

Lemma nothing_extracted_check_flag (text : str) (l : locals) :
  parsing_successful (nothing_extracted_check text l) =
  parsing_successful l &&
  negb (truthy (Some text)
        && negb (truthy (error_details (secs l)))
        && negb (truthy (corrected_code (secs l)))
        && negb (truthy (suggestions (secs l)))).
Proof.
  unfold nothing_extracted_check.
  destruct (_ && _ && _ && _); cbn; [now rewrite andb_false_r|].
  now rewrite andb_true_r.
Qed.

(* ================================================================== *)
(** * The result of [parse_ai_response] *)
(* ================================================================== *)

(** The function returns, and its flag and fields are those the three
    searches determine. *)
Lemma parse_characterisation (text : str) :
  exists s ok,
    parse_ai_response text = Ok (s, ok) /\
    ok = error_located text && code_located text
         && (truthy (error_details s) || truthy (corrected_code s)
             || truthy (suggestions s)) /\
    (error_located text = false ->
     error_details s =
     if contains (py "error details") (lower text)
     then Some MSG_ERROR_DETAILS else None) /\
    (error_located text = true -> is_None (error_details s) = false) /\
    (code_located text = true -> is_None (corrected_code s) = false) /\
    (suggestions s = None \/ truthy (suggestions s) = true) /\
    (suggestions s = None <->
     suggestions_located text = false /\
     contains (py "suggestions") (lower text) = false).
Proof.
  destruct (error_step text initial) as [l1 [E1 [F1 [C1 [S1 [N1 M1]]]]]].
  destruct (code_step text l1) as [l2 [E2 [F2 [D2 [S2 N2]]]]].
  destruct (suggestions_step text l2) as [l3 [E3 [F3 [D3 [C3 [T3 I3]]]]]];
    [now rewrite S2, S1|].
  unfold parse_ai_response.
  rewrite E1. cbn [bind]. rewrite E2. cbn [bind]. rewrite E3. cbn [bind].
  eexists. eexists. split; [reflexivity|].
  rewrite nothing_extracted_check_secs, final_check_secs.
  rewrite nothing_extracted_check_flag, final_check_secs.
  rewrite D3, D2, C3.
  cbn [initial secs parsing_successful error_details] in F1, M1.
  assert (FL : parsing_successful l3 = error_located text && code_located text)
    by now rewrite F3, F2, F1.
  assert (NN : is_None (error_details (secs l1))
               || is_None (corrected_code (secs l2)) = true ->
               parsing_successful l3 = false).
  { rewrite FL. intros H.
    destruct (error_located text); [|reflexivity].
    destruct (code_located text); [|reflexivity].
    rewrite N1, N2 in H by reflexivity. discriminate. }
  rewrite final_check_flag by (now rewrite D3, D2, C3).
  rewrite FL.
  split; [|split; [exact M1 | split; [exact N1 | split; [exact N2 |
           split; [exact T3 | exact I3]]]]].
  destruct (error_located text) eqn:EL; [|reflexivity].
  rewrite (error_located_nonempty _ EL).
  destruct (code_located text); [|reflexivity].
  destruct (truthy (error_details (secs l1)));
    destruct (truthy (corrected_code (secs l2)));
    destruct (truthy (suggestions (secs l3))); reflexivity.
Qed.

(* ================================================================== *)
(** * Located means: the heading occurs *)
(* ================================================================== *)

Lemma rmatch_StarLazy_Dot_total {A} (s : str) (g : option str) (k : cont A) :
  (exists m, k [] g = Some m) ->
  exists m, rmatch DOTALL_IGNORECASE (StarLazy Dot) s g k = Some m.
Proof.
  intros [m0 H0]. induction s as [|x s [m IH]].
  - exists m0. now rewrite rmatch_StarLazy_nil.
  - rewrite rmatch_StarLazy_cons.
    change (atom_matches DOTALL_IGNORECASE Dot x) with true. cbv iota.
    destruct (k (x :: s) g) as [m1|]; simpl; eauto.
Qed.

(** After the heading, the rest of [error_re] matches whatever follows:
    at the latest, group 1 runs to the end of the text. *)
Lemma error_body_total {A} (s : str) (g : option str) (k : cont A) :
  (forall g', exists m, k [] g' = Some m) ->
  exists m, rmatch DOTALL_IGNORECASE error_body_re s g k = Some m.
Proof.
  intros K. unfold error_body_re. rewrite rmatch_Cat.
  set (t := dropwhile (atom_matches DOTALL_IGNORECASE Space) s).
  assert (I : exists m,
             rmatch DOTALL_IGNORECASE (Cat (Group1 (StarLazy Dot)) error_tail_re)
                    t g k = Some m).
  { rewrite rmatch_Cat, rmatch_Group1. apply rmatch_StarLazy_Dot_total.
    destruct (K (Some (firstn (length t - length (@nil ascii)) t))) as [m Hm].
    exists m. now apply (error_tail_some [] []). }
  destruct I as [m Hm]. exists m. now apply rmatch_Star_dropwhile.
Qed.

(** The Error Details section is located exactly when the text has a
    [## Error Details] heading, in any letter case. *)
Lemma error_located_iff_heading (text : str) :
  error_located text = true <-> find true H_ERROR text <> None.
Proof.
  unfold error_located. split.
  - intros H F. now rewrite (error_search_absent _ F) in H.
  - intros H. destruct (find true H_ERROR text) as [n|] eqn:F; [|congruence].
    unfold search. change error_re with (Cat (Text H_ERROR) error_body_re).
    rewrite (search_from_skip DOTALL_IGNORECASE H_ERROR error_body_re _ 0 F).
    pose proof (find_Some_starts _ _ _ F) as S0.
    destruct (error_body_total
                (skipn (length H_ERROR) (skipn n text)) None
                (fun s' g =>
                   Some {| m_start := 0 + n;
                           m_end := 0 + n
                                    + (length (skipn n text) - length s');
                           group1 := g |})) as [m Hm].
    { intros g'. eexists. reflexivity. }
    erewrite search_from_hit; [reflexivity|].
    rewrite match_here_Text.
    change (IGNORECASE DOTALL_IGNORECASE) with true. rewrite S0. exact Hm.
Qed.

(* ================================================================== *)
(** * The properties of the specification *)
(* ================================================================== *)

(** C1 (as amended).  For every input the function returns, and the flag
    is true exactly when both mandatory sections were located (the Error
    Details pattern matched; the Corrected Code heading was found and a
    fenced block was found after it) and at least one of the three fields
    is a non-empty string.  The suggestions field therefore matters in one
    case only: both mandatory sections located with empty content. *)
Theorem success_iff_located_and_extracted (response_text : str) :
  exists s ok,
    parse_ai_response response_text = Ok (s, ok) /\
    (ok = true <->
     error_located response_text = true /\
     code_located response_text = true /\
     truthy (error_details s) || truthy (corrected_code s)
       || truthy (suggestions s) = true).
Proof.
  destruct (parse_characterisation response_text) as [s [ok [P [F _]]]].
  exists s, ok. split; [exact P|]. rewrite F.
  rewrite !andb_true_iff. tauto.
Qed.

(** C1, the claim as stated fails: on a reply whose two mandatory sections
    are located but empty and which has no Suggestions section the flag is
    false; appending an empty Suggestions section turns it to true. *)
Lemma success_depends_on_suggestions :
  let t := py "## Error Details\n## Corrected Code\n```\n\n```" in
  error_located t = true /\ code_located t = true /\
  parse_ai_response t =
    Ok ({| error_details := Some []; corrected_code := Some [];
           suggestions := None |}, false) /\
  parse_ai_response (t ++ py "\n## Suggestions\n") =
    Ok ({| error_details := Some []; corrected_code := Some [];
           suggestions := Some MSG_NO_SUGGESTIONS |}, true).
Proof. vm_compute. repeat split; reflexivity. Qed.

(** C5.  On the empty string the function returns, with the three fields
    unset and the flag false. *)
Theorem parse_empty_string :
  parse_ai_response (py "") = Ok (no_sections, false).
Proof. vm_compute. reflexivity. Qed.

(** C6.  When the lowered text contains the phrase [error details] and
    the text has no [## Error Details] heading in any letter case, the
    field [error_details] holds the diagnostic message and the flag is
    false. *)
Theorem error_phrase_without_heading (response_text : str) :
  contains (py "error details") (lower response_text) = true ->
  find true H_ERROR response_text = None ->
  exists s,
    parse_ai_response response_text = Ok (s, false) /\
    error_details s = Some MSG_ERROR_DETAILS.
Proof.
  intros K F.
  destruct (parse_characterisation response_text)
    as [s [ok [P [Fl [M _]]]]].
  assert (EL : error_located response_text = false).
  { unfold error_located. now rewrite (error_search_absent _ F). }
  exists s. rewrite EL in Fl. cbn in Fl. subst ok.
  split; [exact P|]. rewrite (M EL), K. reflexivity.
Qed.

Lemma error_phrase_without_heading_witness :
  exists s,
    parse_ai_response (py "Here are the error details: x is undefined.")
      = Ok (s, false) /\
    error_details s = Some MSG_ERROR_DETAILS.
Proof.
  apply error_phrase_without_heading; vm_compute; reflexivity.
Defined.

(** C8.  For every input the function returns a sections record and a
    boolean; the one exception its body could raise, a method call on a
    group that took no part in a match, never occurs. *)
Theorem parse_ai_response_never_raises (response_text : str) :
  exists s ok, parse_ai_response response_text = Ok (s, ok).
Proof.
  destruct (parse_characterisation response_text) as [s [ok [P _]]].
  now exists s, ok.
Qed.

(** ** The body on the interpreter's memory *)

Lemma nth_new_object {A} (h : list A) (d dflt : A) :
  nth (length h) (h ++ [d]) dflt = d.
Proof. induction h as [|x h IH]; [reflexivity | exact IH]. Qed.

Lemma update_new_object {A} (f : A -> A) (h : list A) (d : A) :
  Interp.update (length h) f (h ++ [d]) = h ++ [f d].
Proof.
  induction h as [|x h IH]; [reflexivity|]. simpl. now rewrite IH.
Qed.

Lemma getitem_new_object (k : Interp.key) (d : sections)
    (mu : Interp.memory) :
  Interp.getitem (length (Interp.objects mu)) k (Interp.with_object d mu)
  = (Ok (Interp.get_field k d), Interp.with_object d mu).
Proof.
  unfold Interp.getitem, Interp.with_object. cbn [Interp.objects].
  now rewrite nth_new_object.
Qed.

Lemma setitem_new_object (k : Interp.key) (v : str) (d : sections)
    (mu : Interp.memory) :
  Interp.setitem (length (Interp.objects mu)) k v (Interp.with_object d mu)
  = (Ok tt, Interp.with_object (Interp.set_field k v d) mu).
Proof.
  unfold Interp.setitem, Interp.with_object.
  cbn [Interp.objects Interp.globals].
  now rewrite update_new_object.
Qed.

(** What a block of the body does to the memory, given what the block of
    the pure function does to the locals: the new object takes the value
    of [sections], and nothing else changes. *)
Definition block_agrees
    (run : Interp.ref -> bool -> Interp.M bool)
    (pure : locals -> result locals) : Prop :=
  forall (d : sections) (ok : bool) (mu : Interp.memory),
    run (length (Interp.objects mu)) ok (Interp.with_object d mu) =
    match pure {| secs := d; parsing_successful := ok |} with
    | Ok l => (Ok (parsing_successful l), Interp.with_object (secs l) mu)
    | Raise e => (Raise e, Interp.with_object d mu)
    end.

Lemma extract_error_details_agrees (text : str) :
  block_agrees (Interp.extract_error_details text)
               (extract_error_details text).
Proof.
  intros d ok mu.
  unfold Interp.extract_error_details, extract_error_details.
  destruct (search error_re text DOTALL_IGNORECASE) as [m|].
  - unfold Interp.mbind, Interp.lift, group1_strip.
    destruct (group1 m) as [v|]; [|reflexivity].
    cbn [bind]. now rewrite setitem_new_object.
  - unfold Interp.mbind.
    destruct (contains (py "error details") (lower text)).
    + now rewrite setitem_new_object.
    + reflexivity.
Qed.

Lemma extract_corrected_code_agrees (text : str) :
  block_agrees (Interp.extract_corrected_code text)
               (extract_corrected_code text).
Proof.
  intros d ok mu.
  unfold Interp.extract_corrected_code, extract_corrected_code.
  destruct (search heading_re text IGNORECASE_only) as [hm|].
  - destruct (search code_block_re (slice_from (m_end hm) text) DOTALL_only)
      as [m|].
    + unfold Interp.mbind, Interp.lift, group1_strip.
      destruct (group1 m) as [v|]; [|reflexivity].
      cbn [bind]. now rewrite setitem_new_object.
    + unfold Interp.mbind.
      destruct (contains (py "corrected code") (lower text)).
      * now rewrite setitem_new_object.
      * reflexivity.
  - unfold Interp.mbind.
    destruct (contains (py "corrected code") (lower text)).
    + now rewrite setitem_new_object.
    + reflexivity.
Qed.

Lemma extract_suggestions_agrees (text : str) :
  block_agrees (Interp.extract_suggestions text)
               (extract_suggestions text).
Proof.
  intros d ok mu.
  unfold Interp.extract_suggestions, extract_suggestions.
  destruct (search suggestions_re text DOTALL_IGNORECASE) as [m|].
  - unfold Interp.mbind, Interp.lift, group1_strip.
    destruct (group1 m) as [v|]; [|reflexivity].
    cbn [bind]. rewrite setitem_new_object, getitem_new_object.
    cbn [Interp.get_field Interp.set_field suggestions set_suggestions secs].
    destruct (truthy (Some (strip v))); cbn [negb].
    + reflexivity.
    + now rewrite setitem_new_object.
  - unfold Interp.mbind.
    destruct (contains (py "suggestions") (lower text)).
    + now rewrite setitem_new_object.
    + reflexivity.
Qed.

Lemma final_check_agrees (text : str) :
  block_agrees (Interp.final_check text)
               (fun l => Ok (final_check text l)).
Proof.
  intros d ok mu. unfold Interp.final_check, final_check, Interp.mbind.
  rewrite getitem_new_object.
  cbn [Interp.get_field secs parsing_successful].
  destruct (is_None (error_details d)); cbn [orb Interp.ret].
  - now destruct (contains (py "error details") (lower text)
                  || contains (py "corrected code") (lower text)).
  - rewrite getitem_new_object. cbn [Interp.get_field Interp.ret].
    destruct (is_None (corrected_code d)); [|reflexivity].
    now destruct (contains (py "error details") (lower text)
                  || contains (py "corrected code") (lower text)).
Qed.

Lemma nothing_extracted_check_agrees (text : str) :
  block_agrees (Interp.nothing_extracted_check text)
               (fun l => Ok (nothing_extracted_check text l)).
Proof.
  intros d ok mu.
  unfold Interp.nothing_extracted_check, nothing_extracted_check,
    Interp.mbind.
  cbn [secs parsing_successful].
  destruct (truthy (Some text)); [|reflexivity].
  rewrite getitem_new_object. cbn [Interp.get_field andb].
  destruct (truthy (error_details d)); [reflexivity|]. cbn [negb andb].
  rewrite getitem_new_object. cbn [Interp.get_field].
  destruct (truthy (corrected_code d)); [reflexivity|]. cbn [negb andb].
  rewrite getitem_new_object. cbn [Interp.get_field Interp.ret].
  now destruct (truthy (suggestions d)).
Qed.

(** A call from the memory [mu] ends as the pure function says, with the
    dictionary as a new object of the memory. *)
Lemma parse_ai_response_on_memory (text : str) (s : sections) (ok : bool)
    (mu : Interp.memory) :
  parse_ai_response text = Ok (s, ok) ->
  Interp.parse_ai_response text mu =
  (Ok (length (Interp.objects mu), ok), Interp.with_object s mu).
Proof.
  unfold parse_ai_response. intros P.
  unfold Interp.parse_ai_response, Interp.mbind at 1.
  unfold Interp.new_dict.
  change {| Interp.globals := Interp.globals mu;
            Interp.objects := Interp.objects mu ++ [?d] |}
    with (Interp.with_object d mu).
  unfold Interp.mbind at 1. unfold Interp.ret at 1.
  unfold Interp.mbind at 1.
  rewrite (extract_error_details_agrees text). fold initial.
  destruct (extract_error_details text initial) as [l1|e];
    [|discriminate P]. cbn [bind] in P.
  unfold Interp.mbind at 1.
  rewrite (extract_corrected_code_agrees text).
  replace {| secs := secs l1; parsing_successful := parsing_successful l1 |}
    with l1 by now destruct l1.
  destruct (extract_corrected_code text l1) as [l2|e];
    [|discriminate P]. cbn [bind] in P.
  unfold Interp.mbind at 1.
  rewrite (extract_suggestions_agrees text).
  replace {| secs := secs l2; parsing_successful := parsing_successful l2 |}
    with l2 by now destruct l2.
  destruct (extract_suggestions text l2) as [l3|e];
    [|discriminate P]. cbn [bind] in P.
  unfold Interp.mbind at 1.
  rewrite (final_check_agrees text).
  replace {| secs := secs l3; parsing_successful := parsing_successful l3 |}
    with l3 by now destruct l3.
  unfold Interp.mbind at 1.
  rewrite (nothing_extracted_check_agrees text).
  replace {| secs := secs (final_check text l3);
             parsing_successful := parsing_successful (final_check text l3) |}
    with (final_check text l3) by now destruct (final_check text l3).
  unfold Interp.ret. injection P as <- <-. reflexivity.
Qed.

(** C9.  Called from any memory, the function returns the reference of a
    dictionary it has just created and a flag; the contents of the
    dictionary and the flag are the same from any two memories, so they
    depend on the string alone; the global variables and every object
    that existed before the call are left as they were. *)
Theorem parse_ai_response_stateless
    (response_text : str) (mu1 mu2 : Interp.memory) :
  exists s ok,
    Interp.parse_ai_response response_text mu1 =
      (Ok (length (Interp.objects mu1), ok), Interp.with_object s mu1) /\
    Interp.parse_ai_response response_text mu2 =
      (Ok (length (Interp.objects mu2), ok), Interp.with_object s mu2).
Proof.
  destruct (parse_characterisation response_text) as [s [ok [P _]]].
  exists s, ok. split; now apply parse_ai_response_on_memory.
Qed.

(* ================================================================== *)
(** * Replies that follow the template *)
(* ================================================================== *)

Ltac norm_app := repeat (rewrite <- app_assoc || rewrite <- app_comm_cons).

Lemma lstrip_app_stop (a b : str) :
  match b with [] => true | x :: _ => negb (isspace x) end = true ->
  exists w a',
    a = w ++ a' /\ forallb isspace w = true /\ lstrip (a ++ b) = a' ++ b.
Proof.
  intros Hb. destruct (lstrip_split a) as [w [E [W H]]].
  remember (lstrip a) as a' eqn:Ha. clear Ha.
  exists w, a'. repeat split; auto. subst a. unfold lstrip.
  rewrite <- app_assoc, dropwhile_run by exact W.
  apply dropwhile_stop. now destruct a'.
Qed.

Lemma find_cons (ci : bool) (p : str) (x : ascii) (s : str) :
  find ci p (x :: s) =
  if starts ci p (x :: s) then Some 0 else option_map S (find ci p s).
Proof. reflexivity. Qed.

Lemma find_fence_after_blanks (w rest : str) :
  forallb isspace w = true ->
  find false FENCE (w ++ FENCE ++ rest) = Some (length w).
Proof.
  induction w as [|x w IH]; intros W; [reflexivity|].
  simpl in W. apply andb_true_iff in W as [Wx W].
  assert (S0 : starts false FENCE (x :: w ++ FENCE ++ rest) = false).
  { change FENCE with ("`"%char :: "`"%char :: "`"%char :: []) at 1.
    cbn [starts]. unfold eq_char.
    destruct (Ascii.eqb_spec x "`"); [|reflexivity].
    subst x. discriminate. }
  rewrite <- app_comm_cons, find_cons, S0, (IH W). reflexivity.
Qed.



(** The Corrected Code block on a text whose first [## Corrected Code]
    heading is followed by [mid], free of fence markers, and then by a
    fenced block with a tag of letters. *)
Lemma corrected_code_capture (pre mid tag c post : str) (l : locals) :
  find true H_CODE (pre ++ H_CODE ++ mid ++ fenced tag c ++ post)
    = Some (length pre) ->
  find false FENCE (mid ++ fenced tag c ++ post) = Some (length mid) ->
  forallb isalpha_ascii tag = true ->
  find false CLOSING (c ++ CLOSING ++ post) = Some (length c) ->
  extract_corrected_code (pre ++ H_CODE ++ mid ++ fenced tag c ++ post) l
    = Ok (set_corrected_code (strip c) l).
Proof.
  intros F Ff T C.
  destruct (heading_search_found _ F) as [hm [Eh Sl]].
  rewrite skipn_app_plus, skipn_app_length in Sl.
  assert (N : fenced tag c ++ post
              = FENCE ++ tag ++ LF :: c ++ CLOSING ++ post)
    by (unfold fenced; now norm_app).
  rewrite N in *.
  destruct (lstrip_app_stop mid (FENCE ++ tag ++ LF :: c ++ CLOSING ++ post))
    as [w [mid' [Em [W L]]]]; [reflexivity|].
  rewrite L in Sl. subst mid.
  rewrite <- app_assoc, length_app in Ff. apply find_app_skip in Ff.
  destruct (code_block_search_capture mid' tag c post Ff T C) as [m [Eb G]].
  rewrite <- Sl in Eb.
  exact (@extract_corrected_code_found _ l hm m c Eh Eb G).
Qed.

(** The Suggestions block on a text whose first [## Suggestions] heading
    is followed by [S]. *)
Lemma suggestions_capture (before S : str) (l : locals) :
  find true H_SUGG (before ++ H_SUGG ++ S) = Some (length before) ->
  extract_suggestions (before ++ H_SUGG ++ S) l =
  Ok (set_suggestions
        (match strip S with [] => MSG_NO_SUGGESTIONS | _ :: _ => strip S end)
        l).
Proof.
  intros F. destruct (suggestions_search_found _ F) as [m [Es G]].
  rewrite skipn_app_plus, skipn_app_length in G.
  rewrite (@extract_suggestions_found _ l m _ Es G).
  now rewrite strip_lstrip.
Qed.





(** When the Corrected Code block stores [v] whatever the locals, the
    result has [v] in its field, and the flag is decided by the Error
    Details section and by whether anything was extracted. *)
Lemma parse_corrected_code (text v : str) :
  (forall l, extract_corrected_code text l = Ok (set_corrected_code v l)) ->
  exists s ok,
    parse_ai_response text = Ok (s, ok) /\
    corrected_code s = Some v /\
    code_located text = true /\
    ok = error_located text
         && (truthy (error_details s) || truthy (corrected_code s)
             || truthy (suggestions s)) /\
    (suggestions_located text = true -> truthy (suggestions s) = true).
Proof.
  intros H.
  destruct (parse_characterisation text)
    as [s [ok [P [F [_ [_ [_ [T3 I3]]]]]]]].
  destruct (error_step text initial) as [l1 [E1 [_ [C1 [S1 _]]]]].
  destruct (code_step text initial) as [l0 [E0 [F0 _]]].
  rewrite H in E0. injection E0 as <-. cbn in F0.
  destruct (suggestions_step text (set_corrected_code v l1))
    as [l3 [E3 [_ [_ [C3 _]]]]]; [exact S1|].
  assert (P' := P). unfold parse_ai_response in P'.
  rewrite E1 in P'. cbn [bind] in P'. rewrite H in P'. cbn [bind] in P'.
  rewrite E3 in P'. cbn [bind] in P'. injection P' as Ps _.
  rewrite nothing_extracted_check_secs, final_check_secs in Ps.
  exists s, ok. split; [exact P|]. split; [now rewrite <- Ps, C3|].
  split; [now rewrite <- F0|]. split.
  - rewrite F, <- F0. now rewrite andb_true_r.
  - intros SL. destruct T3 as [T3|T3]; [|exact T3].
    apply I3 in T3 as [T3 _]. congruence.
Qed.









(** C4 (as amended).  A reply whose first [## Corrected Code] heading is
    followed, after blanks only, by a fenced block whose language tag is
    made of ASCII letters (possibly none): the field [corrected_code] is
    the trimmed interior, without the fence markers and without the
    tag. *)
Theorem fence_and_letter_tag_excluded (pre w tag c post : str) :
  let text := pre ++ H_CODE ++ w ++ fenced tag c ++ post in
  find true H_CODE text = Some (length pre) ->
  forallb isspace w = true ->
  forallb isalpha_ascii tag = true ->
  find false CLOSING (c ++ CLOSING ++ post) = Some (length c) ->
  exists s ok,
    parse_ai_response text = Ok (s, ok) /\
    corrected_code s = Some (strip c).
Proof.
  intros text F W T C. subst text.
  destruct (@parse_corrected_code
              (pre ++ H_CODE ++ w ++ fenced tag c ++ post) (strip c))
    as [s [ok [P [Cc _]]]].
  { intros l. apply corrected_code_capture; auto.
    unfold fenced. norm_app. now apply find_fence_after_blanks. }
  now exists s, ok.
Qed.

Lemma fence_and_letter_tag_excluded_witness :
  exists s ok,
    parse_ai_response
      (py "## Corrected Code\n```python\nprint(1)\n```") = Ok (s, ok) /\
    corrected_code s = Some (py "print(1)").
Proof.
  pose proof (fence_and_letter_tag_excluded
                [] (py "\n") (py "python") (py "print(1)") []) as H.
  vm_compute in H. vm_compute. apply H; reflexivity.
Defined.

(** C4, the claim as stated fails: a language tag with a character that
    is not a letter stays in the extracted code. *)
Lemma tag_with_symbols_is_captured :
  parse_ai_response
    (py "## Error Details\nx\n## Corrected Code\n```c++\nint x;\n```")
  = Ok ({| error_details := Some (py "x");
           corrected_code := Some (py "c++\nint x;");
           suggestions := None |}, true)
  /\ starts false (py "c++") (py "c++\nint x;") = true.
Proof. vm_compute. split; reflexivity. Qed.




(* ================================================================== *)
(** * Further properties of the parser *)
(* ================================================================== *)

Lemma final_check_id (text : str) (l : locals) :
  (is_None (error_details (secs l)) || is_None (corrected_code (secs l))
   = true -> parsing_successful l = false) ->
  final_check text l = l.
Proof.
  unfold final_check. intros H.
  destruct (is_None _ || is_None _); [|reflexivity].
  destruct (contains _ _ || contains _ _); [|reflexivity].
  destruct l as [s f]. cbn in *. now rewrite H.
Qed.

(** The three blocks in sequence, with what the last two checks find. *)
Lemma parse_run (text : str) :
  exists l1 l2 l3,
    extract_error_details text initial = Ok l1 /\
    extract_corrected_code text l1 = Ok l2 /\
    extract_suggestions text l2 = Ok l3 /\
    final_check text l3 = l3 /\
    parse_ai_response text =
      Ok (secs l3, parsing_successful (nothing_extracted_check text l3)) /\
    error_details (secs l3) = error_details (secs l1) /\
    corrected_code (secs l3) = corrected_code (secs l2) /\
    parsing_successful l3 = error_located text && code_located text.
Proof.
  destruct (error_step text initial) as [l1 [E1 [F1 [C1 [S1 [N1 M1]]]]]].
  destruct (code_step text l1) as [l2 [E2 [F2 [D2 [S2 N2]]]]].
  destruct (suggestions_step text l2) as [l3 [E3 [F3 [D3 [C3 _]]]]];
    [now rewrite S2, S1|].
  cbn [initial parsing_successful] in F1.
  assert (FL : parsing_successful l3 = error_located text && code_located text)
    by now rewrite F3, F2, F1.
  assert (FC : final_check text l3 = l3).
  { apply final_check_id. rewrite FL, D3, D2, C3. intros H.
    destruct (error_located text); [|reflexivity].
    destruct (code_located text); [|reflexivity].
    rewrite N1, N2 in H by reflexivity. discriminate. }
  exists l1, l2, l3. repeat (split; [assumption|]).
  split; [|split; [now rewrite D3, D2 | split; [exact C3 | exact FL]]].
  unfold parse_ai_response.
  rewrite E1. cbn [bind]. rewrite E2. cbn [bind]. rewrite E3. cbn [bind].
  rewrite FC. now rewrite nothing_extracted_check_secs.
Qed.

Lemma Ok_inj {A} (a b : A) : Ok a = Ok b -> a = b.
Proof. intros H. now injection H. Qed.

(** X1.  The check of lines 108-114 never changes anything: whenever a
    mandatory field is [None] the flag is already false. *)
Theorem final_check_changes_nothing (text : str) (l1 l2 l3 : locals) :
  extract_error_details text initial = Ok l1 ->
  extract_corrected_code text l1 = Ok l2 ->
  extract_suggestions text l2 = Ok l3 ->
  final_check text l3 = l3.
Proof.
  intros E1 E2 E3.
  destruct (parse_run text) as [k1 [k2 [k3 [R1 [R2 [R3 [FC _]]]]]]].
  rewrite E1 in R1. apply Ok_inj in R1. subst k1.
  rewrite E2 in R2. apply Ok_inj in R2. subst k2.
  rewrite E3 in R3. apply Ok_inj in R3. now subst k3.
Qed.

Lemma final_check_changes_nothing_witness :
  let text := py "error details only" in
  let l := {| secs := {| error_details := Some MSG_ERROR_DETAILS;
                         corrected_code := None;
                         suggestions := None |};
              parsing_successful := false |} in
  final_check text l = l.
Proof.
  intros text l.
  apply (@final_check_changes_nothing text l l l); vm_compute; reflexivity.
Defined.

(** ** A heading brings its phrase with it *)

Lemma starts_lower (h : str) :
  forall s, starts true h s = true ->
            starts false (lower h) (lower s) = true.
Proof.
  induction h as [|c h IH]; intros [|x s] H; simpl in *;
    try reflexivity; try discriminate.
  apply andb_true_iff in H as [H1 H2]. rewrite (IH s H2).
  unfold eq_char in *. now rewrite H1.
Qed.

Lemma starts_drop_prefix (a b : str) :
  forall s, starts false (a ++ b) s = true ->
            starts false b (skipn (length a) s) = true.
Proof.
  induction a as [|c a IH]; intros s H; [exact H|].
  destruct s as [|x s]; simpl in H; [discriminate|].
  apply andb_true_iff in H as [_ H]. simpl. now apply IH.
Qed.

Lemma contains_at (p : str) :
  forall s n, starts false p (skipn n s) = true -> contains p s = true.
Proof.
  induction s as [|x s IH]; intros n H.
  - rewrite skipn_nil in H. simpl. now rewrite H.
  - destruct n as [|n].
    + simpl in H. cbn [contains]. now rewrite H.
    + cbn [contains]. simpl in H. rewrite (IH n H). apply orb_true_r.
Qed.

Lemma contains_starts (p : str) :
  forall s, contains p s = true ->
            exists n, starts false p (skipn n s) = true.
Proof.
  induction s as [|x s IH]; cbn [contains]; intros H.
  - rewrite orb_false_r in H. now exists 0.
  - apply orb_true_iff in H as [H|H]; [now exists 0|].
    destruct (IH H) as [n Hn]. now exists (S n).
Qed.

(** A text with the heading [h], in any letter case, has in its lowered
    form the phrase that follows [## ] in the heading. *)
Lemma heading_has_phrase (h phrase text : str) (n : nat) :
  lower h = py "## " ++ phrase ->
  starts true h (skipn n text) = true ->
  contains phrase (lower text) = true.
Proof.
  intros L H. apply starts_lower in H. rewrite L in H.
  apply starts_drop_prefix in H. unfold lower in H.
  rewrite <- skipn_map, skipn_skipn in H.
  exact (contains_at _ _ _ H).
Qed.

Lemma code_heading_has_phrase (text : str) (n : nat) :
  find true H_CODE text = Some n ->
  contains (py "corrected code") (lower text) = true.
Proof.
  intros F. apply (@heading_has_phrase H_CODE _ text n); [reflexivity|].
  exact (find_Some_starts _ _ _ F).
Qed.

Lemma find_None_skipn (ci : bool) (p : str) :
  forall s j, find ci p s = None -> find ci p (skipn j s) = None.
Proof.
  induction s as [|x s IH]; intros j H.
  - now rewrite skipn_nil.
  - destruct j as [|j]; [exact H|]. simpl in H.
    destruct (starts ci p (x :: s)); [discriminate|].
    destruct (find ci p s) eqn:F; [discriminate|]. simpl. now apply IH.
Qed.

Lemma code_located_heading (text : str) :
  code_located text = true -> find true H_CODE text <> None.
Proof.
  unfold code_located. intros H F.
  now rewrite (heading_search_absent _ F) in H.
Qed.

(** ** The diagnostic messages of the Corrected Code section *)

(** X2.  When the text has a [## Corrected Code] heading and no fence
    marker after the first one, the field [corrected_code] holds the
    message of line 78 and the flag is false: the phrase test of line 77
    cannot fail, the heading itself contains the phrase. *)
Theorem heading_without_fence (text : str) (n : nat) :
  find true H_CODE text = Some n ->
  find false FENCE (skipn (n + length H_CODE) text) = None ->
  exists s,
    parse_ai_response text = Ok (s, false) /\
    corrected_code s = Some MSG_NO_BLOCK.
Proof.
  intros F NF.
  destruct (heading_search_found _ F) as [hm [Eh Sl]].
  assert (Eb : search code_block_re (slice_from (m_end hm) text) DOTALL_only
               = None).
  { rewrite Sl. apply search_from_absent.
    destruct (lstrip_suffix (skipn (n + length H_CODE) text) 0) as [a Ea].
    cbn [skipn] in Ea.
    assert (X : lstrip (skipn (n + length H_CODE) text)
                = skipn (length a) (skipn (n + length H_CODE) text))
      by (rewrite Ea at 2; now rewrite skipn_app_length).
    rewrite X. now apply find_None_skipn. }
  destruct (parse_run text) as [l1 [l2 [l3 [E1 [E2 [E3 [_ [P [_ [Cc FL]]]]]]]]]].
  rewrite (@extract_corrected_code_no_block text l1 hm Eh Eb) in E2.
  rewrite (code_heading_has_phrase _ F) in E2. apply Ok_inj in E2. subst l2.
  assert (CL : code_located text = false)
    by (unfold code_located; now rewrite Eh, Eb).
  exists (secs l3). split; [|exact Cc].
  rewrite P, nothing_extracted_check_flag, FL, CL.
  now rewrite andb_false_r.
Qed.

Lemma heading_without_fence_witness :
  exists s,
    parse_ai_response (py "## Error Details\nx\n## Corrected Code\nprint(1)")
      = Ok (s, false) /\
    corrected_code s = Some MSG_NO_BLOCK.
Proof.
  apply (@heading_without_fence _ 19); vm_compute; reflexivity.
Defined.

(** X3.  When the lowered text contains the phrase [corrected code] and
    the text has no [## Corrected Code] heading in any letter case, the
    field [corrected_code] holds the message of line 82 and the flag is
    false. *)
Theorem code_phrase_without_heading (text : str) :
  contains (py "corrected code") (lower text) = true ->
  find true H_CODE text = None ->
  exists s,
    parse_ai_response text = Ok (s, false) /\
    corrected_code s = Some MSG_NO_HEADING.
Proof.
  intros K F. pose proof (heading_search_absent _ F) as Eh.
  destruct (parse_run text) as [l1 [l2 [l3 [E1 [E2 [E3 [_ [P [_ [Cc FL]]]]]]]]]].
  rewrite (@extract_corrected_code_no_heading text l1 Eh), K in E2.
  apply Ok_inj in E2. subst l2.
  assert (CL : code_located text = false)
    by (unfold code_located; now rewrite Eh).
  exists (secs l3). split; [|exact Cc].
  rewrite P, nothing_extracted_check_flag, FL, CL.
  now rewrite andb_false_r.
Qed.

Lemma code_phrase_without_heading_witness :
  exists s,
    parse_ai_response (py "## Error Details\nx\nCorrected code: print(1)")
      = Ok (s, false) /\
    corrected_code s = Some MSG_NO_HEADING.
Proof.
  apply code_phrase_without_heading; vm_compute; reflexivity.
Defined.

(** ** The Suggestions section *)

(** X4.  The field [suggestions] is everything that follows the first
    [## Suggestions] heading, trimmed, whatever it holds (later headings
    and code blocks included), or the message of line 99 when that is
    blank. *)
Theorem suggestions_take_the_rest (before S : str) :
  find true H_SUGG (before ++ H_SUGG ++ S) = Some (length before) ->
  exists s ok,
    parse_ai_response (before ++ H_SUGG ++ S) = Ok (s, ok) /\
    suggestions s =
      Some (match strip S with
            | [] => MSG_NO_SUGGESTIONS
            | _ :: _ => strip S
            end).
Proof.
  intros F.
  destruct (parse_run (before ++ H_SUGG ++ S))
    as [l1 [l2 [l3 [E1 [E2 [E3 [_ [P _]]]]]]]].
  rewrite (suggestions_capture before S l2 F) in E3.
  apply Ok_inj in E3. subst l3.
  eexists. eexists. split; [exact P|]. reflexivity.
Qed.

Lemma suggestions_take_the_rest_witness :
  exists s ok,
    parse_ai_response
      ([] ++ H_SUGG ++ py "\nUse types.\n## Error Details\nboom\n")
    = Ok (s, ok)
    /\ suggestions s =
       Some (match strip (py "\nUse types.\n## Error Details\nboom\n") with
             | [] => MSG_NO_SUGGESTIONS
             | _ :: _ => strip (py "\nUse types.\n## Error Details\nboom\n")
             end).
Proof.
  apply (suggestions_take_the_rest []
           (py "\nUse types.\n## Error Details\nboom\n")).
  vm_compute. reflexivity.
Defined.

(** X5.  When the lowered text contains the word [suggestions] and the
    text has no [## Suggestions] heading in any letter case, the field
    [suggestions] holds the message of line 104, and the flag is true
    exactly when both mandatory sections were located. *)
Theorem suggestions_word_without_heading (text : str) :
  contains (py "suggestions") (lower text) = true ->
  find true H_SUGG text = None ->
  exists s ok,
    parse_ai_response text = Ok (s, ok) /\
    suggestions s = Some MSG_SUGGESTIONS /\
    (ok = true <-> error_located text = true /\ code_located text = true).
Proof.
  intros K F. pose proof (suggestions_search_absent _ F) as Es.
  destruct (parse_run text) as [l1 [l2 [l3 [E1 [E2 [E3 [_ [P [_ [_ FL]]]]]]]]]].
  rewrite (@extract_suggestions_missing text l2 Es), K in E3.
  apply Ok_inj in E3. subst l3.
  eexists. eexists. split; [exact P|]. split; [reflexivity|].
  rewrite nothing_extracted_check_flag, FL.
  cbn [set_suggestions secs suggestions].
  change (truthy (Some MSG_SUGGESTIONS)) with true. cbn [negb].
  rewrite andb_false_r. cbn [negb]. rewrite andb_true_r.
  apply andb_true_iff.
Qed.

Lemma suggestions_word_without_heading_witness :
  exists s ok,
    parse_ai_response (py "No suggestions.") = Ok (s, ok) /\
    suggestions s = Some MSG_SUGGESTIONS /\
    (ok = true <->
     error_located (py "No suggestions.") = true /\
     code_located (py "No suggestions.") = true).
Proof.
  apply suggestions_word_without_heading; vm_compute; reflexivity.
Defined.

(** ** Invariants of the result *)

(** X6.  The field [suggestions] is never the empty string: it is unset
    or holds at least one character. *)
Theorem suggestions_never_empty (text : str) :
  exists s ok,
    parse_ai_response text = Ok (s, ok) /\
    suggestions s <> Some [].
Proof.
  destruct (parse_characterisation text)
    as [s [ok [P [_ [_ [_ [_ [T _]]]]]]]].
  exists s, ok. split; [exact P|].
  intros E. rewrite E in T. destruct T; discriminate.
Qed.

(** X7.  When the flag is true the text has both mandatory headings, in
    some letter case, and the two mandatory fields are set. *)
Theorem success_needs_both_headings (text : str) :
  exists s ok,
    parse_ai_response text = Ok (s, ok) /\
    (ok = true ->
     find true H_ERROR text <> None /\ find true H_CODE text <> None /\
     error_details s <> None /\ corrected_code s <> None).
Proof.
  destruct (parse_characterisation text)
    as [s [ok [P [F [_ [N1 [N2 _]]]]]]].
  exists s, ok. split; [exact P|]. intros ->. symmetry in F.
  apply andb_true_iff in F as [F _]. apply andb_true_iff in F as [EL CL].
  specialize (N1 EL). specialize (N2 CL).
  split; [now apply error_located_iff_heading|].
  split; [now apply code_located_heading|].
  split; intros E; rewrite E in *; discriminate.
Qed.

(** ** What the captures never contain *)

Lemma starts_app (ci : bool) (p s t : str) :
  starts ci p s = true -> starts ci p (s ++ t) = true.
Proof.
  revert s; induction p as [|c p IH]; intros [|x s] H; simpl in *;
    try reflexivity; try discriminate.
  apply andb_true_iff in H as [H1 H2]. rewrite H1. simpl. now apply IH.
Qed.

Lemma starts_skipn_app (ci : bool) (p c : str) :
  forall b j, starts ci p (skipn j b) = true ->
              starts ci p (skipn j (b ++ c)) = true.
Proof.
  induction b as [|x b IH]; intros j H.
  - rewrite skipn_nil in H. destruct p; [reflexivity | discriminate].
  - destruct j as [|j]; [now apply (starts_app ci p (x :: b) c)|].
    simpl. now apply IH.
Qed.

Lemma find_None_of_starts (ci : bool) (p : str) :
  forall s, (forall j, starts ci p (skipn j s) = false) ->
            find ci p s = None.
Proof.
  induction s as [|x s IH]; intros H.
  - pose proof (H 0) as H0. simpl in H0. simpl. now rewrite H0.
  - rewrite find_cons. pose proof (H 0) as H0. simpl in H0. rewrite H0.
    rewrite IH; [reflexivity|]. intros j. exact (H (S j)).
Qed.

(** A text in which [p] does not occur has no part in which it does. *)
Lemma find_None_middle (ci : bool) (p a b c : str) :
  find ci p (a ++ b ++ c) = None -> find ci p b = None.
Proof.
  intros H. apply find_None_of_starts. intros j.
  destruct (starts ci p (skipn j b)) eqn:E; [|reflexivity].
  apply (starts_skipn_app ci p c) in E.
  rewrite <- (skipn_app_plus a (b ++ c) j) in E.
  now rewrite (find_None_starts _ _ _ _ H) in E.
Qed.

Lemma find_None_strip (ci : bool) (p v : str) :
  find ci p v = None -> find ci p (strip v) = None.
Proof.
  intros H. destruct (strip_split v) as [w1 [w2 [E _]]].
  rewrite E in H. exact (find_None_middle _ _ _ _ _ H).
Qed.

(** A prefix of a text in which [p] starts nowhere before the cut has no
    occurrence of [p]. *)
Lemma find_None_firstn (ci : bool) (p s : str) (n : nat) :
  p <> [] ->
  (forall j, j < n -> starts ci p (skipn j s) = false) ->
  find ci p (firstn n s) = None.
Proof.
  intros Hp H. apply find_None_of_starts. intros j.
  destruct (starts ci p (skipn j (firstn n s))) eqn:E; [|reflexivity].
  assert (L : j < length (firstn n s)).
  { destruct (Nat.lt_ge_cases j (length (firstn n s))) as [L|L]; [exact L|].
    rewrite skipn_all2 in E by exact L. destruct p; [congruence|discriminate]. }
  assert (Jn : j < n) by (rewrite length_firstn in L; lia).
  apply (starts_skipn_app ci p (skipn n s)) in E.
  rewrite firstn_skipn in E. now rewrite (H j Jn) in E.
Qed.

Section Inversion.
Context {A : Type} (fl : flags).

(** Where a lazy repetition stopped, the rest of the pattern accepted, and
    it had refused at every earlier place. *)
Lemma rmatch_StarLazy_inv (a : atom) :
  forall s g (k : cont A) m,
    rmatch fl (StarLazy a) s g k = Some m ->
    exists n, n <= length s /\ k (skipn n s) g = Some m /\
              forall j, j < n -> k (skipn j s) g = None.
Proof.
  induction s as [|x s IH]; intros g k m H.
  - exists 0. repeat split; auto. intros j Hj. lia.
  - rewrite rmatch_StarLazy_cons in H.
    destruct (atom_matches fl a x).
    + destruct (k (x :: s) g) as [m'|] eqn:K; simpl in H.
      * exists 0. repeat split; [simpl; lia | now rewrite <- H | intros; lia].
      * destruct (IH g k m H) as [n [Hn [Hk Hb]]].
        exists (S n). repeat split; [simpl; lia | exact Hk |].
        intros [|j] Hj; [exact K | apply Hb; lia].
    + exists 0. repeat split; [simpl; lia | exact H | intros; lia].
Qed.

End Inversion.

Lemma rmatch_groupless (fl : flags) (r : regex) :
  groupless r = true ->
  forall A (k : cont A) s g m,
    rmatch fl r s g k = Some m -> exists s', k s' g = Some m.
Proof.
  induction r as [|a|r1 IH1 r2 IH2|r1 IH1 r2 IH2|a|a|r1 IH1|r1 IH1|r1 IH1|];
    cbn [groupless]; intros G A k s g m H; try discriminate.
  - now exists s.
  - destruct s as [|x s]; [discriminate|]. rewrite rmatch_Atom in H.
    destruct (atom_matches fl a x); [now exists s | discriminate].
  - apply andb_true_iff in G as [G1 G2]. rewrite rmatch_Cat in H.
    destruct (IH1 G1 _ _ _ _ _ H) as [s1 H1]. exact (IH2 G2 _ _ _ _ _ H1).
  - apply andb_true_iff in G as [G1 G2]. rewrite rmatch_Alt in H.
    apply orelse_Some in H as [H|H]; eauto.
  - induction s as [|x s IHs]; [now exists []|].
    rewrite rmatch_Star_cons in H.
    destruct (atom_matches fl a x); [|now exists (x :: s)].
    apply orelse_Some in H as [H|H]; [now apply IHs | now exists (x :: s)].
  - induction s as [|x s IHs]; [now exists []|].
    rewrite rmatch_StarLazy_cons in H.
    destruct (atom_matches fl a x); [|now exists (x :: s)].
    apply orelse_Some in H as [H|H]; [now exists (x :: s) | now apply IHs].
  - rewrite rmatch_Opt in H. apply orelse_Some in H as [H|H]; eauto.
  - rewrite rmatch_Lookahead in H.
    destruct (rmatch fl r1 s g (fun _ g' => Some g')) as [g'|] eqn:E;
      [|discriminate].
    destruct (IH1 G _ _ _ _ _ E) as [s' Hs]. injection Hs as <-. now exists s.
  - rewrite rmatch_EndOfString in H. destruct s; [now exists [] | discriminate].
Qed.

Lemma search_from_inv (fl : flags) (r : regex) :
  forall s pos m,
    search_from fl r pos s = Some m ->
    exists pos' s', match_here fl r pos' s' = Some m.
Proof.
  induction s as [|x s IH]; intros pos m H; cbn [search_from] in H.
  - destruct (match_here fl r pos []) eqn:E; [|discriminate].
    injection H as <-. eauto.
  - destruct (match_here fl r pos (x :: s)) eqn:E.
    + injection H as <-. eauto.
    + exact (IH _ _ H).
Qed.

Lemma groupless_Text (h : str) : groupless (Text h) = true.
Proof. induction h as [|c h IH]; [reflexivity|]. cbn [Text groupless]. exact IH. Qed.

Lemma groupless_error_tail_re : groupless error_tail_re = true.
Proof.
  unfold error_tail_re, boundary_re. cbn [groupless].
  now rewrite !groupless_Text.
Qed.

Lemma error_re_eq :
  error_re = Cat (Text H_ERROR)
               (Cat (Star Space) (Cat (Group1 (StarLazy Dot)) error_tail_re)).
Proof. reflexivity. Qed.

Lemma error_tail_refuses {A} (t : str) (g : option str) (k : cont A) :
  (exists m, k t g = Some m) ->
  rmatch DOTALL_IGNORECASE error_tail_re t g k = None ->
  at_boundary t = false.
Proof.
  intros [m K] H. destruct (at_boundary t) eqn:B; [|reflexivity].
  pose proof (@error_tail_some A [] t g k m eq_refl B K) as X.
  cbn [app] in X. congruence.
Qed.

Lemma error_match_capture1 (pos : nat) (s : str) (m : match_obj) :
  match_here DOTALL_IGNORECASE error_re pos s = Some m ->
  exists s2 n, group1 m = Some (firstn n s2) /\
     forall j, j < n -> at_boundary (skipn j s2) = false.
Proof.
  unfold match_here. rewrite error_re_eq.
  intros H. rewrite rmatch_Cat in H.
  apply (rmatch_groupless DOTALL_IGNORECASE (Text H_ERROR)
           (groupless_Text H_ERROR)) in H as [s1 H].
  rewrite rmatch_Cat in H.
  apply (rmatch_groupless DOTALL_IGNORECASE (Star Space) eq_refl)
    in H as [s2 H].
  rewrite rmatch_Cat, rmatch_Group1 in H.
  apply rmatch_StarLazy_inv in H as [n [Hn [Hk Hb]]].
  apply (rmatch_groupless DOTALL_IGNORECASE error_tail_re
           groupless_error_tail_re) in Hk as [s' Hk].
  injection Hk as <-. cbn [group1].
  rewrite length_skipn.
  replace (length s2 - (length s2 - n)) with n by lia.
  exists s2, n. split; [reflexivity|].
  intros j Hj. specialize (Hb j Hj).
  apply error_tail_refuses in Hb; [exact Hb|]. eexists. reflexivity.
Qed.

Lemma H_CODE_nonempty : H_CODE <> [].
Proof. discriminate. Qed.
Lemma H_SUGG_nonempty : H_SUGG <> [].
Proof. discriminate. Qed.
Lemma CLOSING_nonempty : CLOSING <> [].
Proof. discriminate. Qed.

Lemma at_boundary_false (t : str) :
  at_boundary t = false ->
  starts true H_CODE t = false /\ starts true H_SUGG t = false.
Proof.
  unfold at_boundary. intros H.
  apply orb_false_iff in H as [H _]. now apply orb_false_iff in H.
Qed.

Lemma error_match_capture (pos : nat) (s : str) (m : match_obj) :
  match_here DOTALL_IGNORECASE error_re pos s = Some m ->
  exists v, group1 m = Some v /\
            find true H_CODE v = None /\ find true H_SUGG v = None.
Proof.
  intros H. destruct (error_match_capture1 _ _ H) as [s2 [n [G NB]]].
  exists (firstn n s2). split; [exact G|].
  split; apply find_None_firstn.
  - exact H_CODE_nonempty.
  - intros j Hj. now apply at_boundary_false, NB.
  - exact H_SUGG_nonempty.
  - intros j Hj. now apply at_boundary_false, NB.
Qed.

Lemma code_block_match_capture (pos : nat) (s : str) (m : match_obj) :
  match_here DOTALL_only code_block_re pos s = Some m ->
  exists v, group1 m = Some v /\ find false CLOSING v = None.
Proof.
  unfold match_here, code_block_re. intros H. rewrite rmatch_Cat in H.
  apply (rmatch_groupless DOTALL_only (Text FENCE) eq_refl) in H as [s1 H].
  rewrite rmatch_Cat in H.
  apply (rmatch_groupless DOTALL_only
           (Opt (Cat (Star Letters) (Atom (Chr LF)))) eq_refl) in H as [s2 H].
  rewrite rmatch_Cat, rmatch_Group1 in H.
  apply rmatch_StarLazy_inv in H as [n [Hn [Hk Hb]]].
  rewrite rmatch_Text in Hk.
  destruct (starts (IGNORECASE DOTALL_only) CLOSING (skipn n s2));
    [|discriminate].
  injection Hk as <-. cbn [group1].
  rewrite length_skipn.
  replace (length s2 - (length s2 - n)) with n by lia.
  exists (firstn n s2). split; [reflexivity|].
  apply find_None_firstn; [discriminate|].
  intros j Hj. specialize (Hb j Hj). rewrite rmatch_Text in Hb.
  change (IGNORECASE DOTALL_only) with false in Hb.
  now destruct (starts false CLOSING (skipn j s2)).
Qed.

(** X8.  When the text has a [## Error Details] heading, in any letter
    case, the field [error_details] is set and contains neither a
    [## Corrected Code] nor a [## Suggestions] heading, in any letter
    case. *)
Theorem error_details_excludes_headings (text : str) :
  exists s ok,
    parse_ai_response text = Ok (s, ok) /\
    (find true H_ERROR text <> None ->
     exists e, error_details s = Some e /\
               find true H_CODE e = None /\ find true H_SUGG e = None).
Proof.
  destruct (parse_run text) as [l1 [l2 [l3 [E1 [E2 [E3 [_ [P [Ce _]]]]]]]]].
  eexists. eexists. split; [exact P|]. intros H.
  apply error_located_iff_heading in H. unfold error_located in H.
  destruct (search error_re text DOTALL_IGNORECASE) as [m|] eqn:Es;
    [|discriminate].
  destruct (search_from_inv _ _ _ _ Es) as [pos [s' Hm]].
  destruct (error_match_capture _ _ Hm) as [v [G [N1 N2]]].
  rewrite (@extract_error_details_found text initial m v Es G) in E1.
  apply Ok_inj in E1. subst l1. rewrite Ce.
  exists (strip v). split; [reflexivity|].
  split; now apply find_None_strip.
Qed.

(** X9.  When the Corrected Code section is located, the field
    [corrected_code] is set and contains no line break followed by a
    fence marker. *)
Theorem corrected_code_excludes_closing_fence (text : str) :
  exists s ok,
    parse_ai_response text = Ok (s, ok) /\
    (code_located text = true ->
     exists v, corrected_code s = Some v /\ find false CLOSING v = None).
Proof.
  destruct (parse_run text) as [l1 [l2 [l3 [E1 [E2 [E3 [_ [P [_ [Cc _]]]]]]]]]].
  eexists. eexists. split; [exact P|]. unfold code_located. intros H.
  destruct (search heading_re text IGNORECASE_only) as [hm|] eqn:Eh;
    [|discriminate].
  destruct (search code_block_re (slice_from (m_end hm) text) DOTALL_only)
    as [m|] eqn:Eb; [|discriminate].
  destruct (search_from_inv _ _ _ _ Eb) as [pos [s' Hm]].
  destruct (code_block_match_capture _ _ Hm) as [v [G N]].
  rewrite (@extract_corrected_code_found text l1 hm m v Eh Eb G) in E2.
  apply Ok_inj in E2. subst l2. rewrite Cc.
  exists (strip v). split; [reflexivity|]. now apply find_None_strip.
Qed.

(* ================================================================== *)
(** * The display of the results *)
(* ================================================================== *)

Lemma ui_bind_snd {A B} (x : ui A) (f : A -> ui B) :
  snd (ui_bind x f) =
  match snd x with Done a => snd (f a) | Raised e => Raised e end.
Proof. destruct x as [ev [a|e]]; simpl; [now destruct (f a) | reflexivity]. Qed.

Lemma ui_bind_fst {A B} (x : ui A) (f : A -> ui B) :
  fst (ui_bind x f) =
  fst x ++ match snd x with Done a => fst (f a) | Raised _ => [] end.
Proof.
  destruct x as [ev [a|e]]; simpl; [now destruct (f a)|].
  now rewrite app_nil_r.
Qed.

Lemma show_error_details_snd (s : sections) (ok : bool) :
  snd (show_error_details s ok) =
  match error_details s with None => Raised TypeError | Some _ => Done tt end.
Proof.
  unfold show_error_details. rewrite ui_bind_snd. cbn [emit snd].
  destruct (error_details s) as [d|]; [|reflexivity].
  destruct (contains MARK d); [reflexivity|].
  destruct (str_eqb d _ && negb ok); [reflexivity|].
  now destruct (truthy (Some d)).
Qed.

Lemma show_corrected_code_snd (s : sections) (ok : bool) :
  snd (show_corrected_code s ok) = Done tt.
Proof.
  unfold show_corrected_code. rewrite ui_bind_snd. cbn [emit snd].
  destruct (corrected_code s) as [[|x c]|].
  - rewrite ui_bind_snd. cbn [emit snd]. now destruct (negb ok).
  - now destruct (contains MARK (x :: c)).
  - rewrite ui_bind_snd. cbn [emit snd]. now destruct (negb ok).
Qed.

Lemma show_suggestions_snd (s : sections) :
  snd (show_suggestions s) =
  match suggestions s with None => Raised TypeError | Some _ => Done tt end.
Proof.
  unfold show_suggestions. rewrite ui_bind_snd. cbn [emit snd].
  destruct (suggestions s) as [t|]; [|reflexivity].
  destruct (contains MARK t); [reflexivity|].
  now destruct (truthy (Some t)).
Qed.

Lemma show_raw_response_snd (text : str) (ok : bool) :
  snd (show_raw_response text ok) = Done tt.
Proof.
  unfold show_raw_response.
  destruct (negb ok && truthy (Some text)); [|reflexivity].
  now rewrite ui_bind_snd.
Qed.

(** How the display ends, from the two fields it tests for the marker. *)
Lemma show_results_snd (text : str) (s : sections) (ok : bool) :
  parse_ai_response text = Ok (s, ok) ->
  snd (show_results text) =
  match error_details s, suggestions s with
  | Some _, Some _ => Done tt
  | _, _ => Raised TypeError
  end.
Proof.
  intros P. unfold show_results. rewrite P.
  rewrite ui_bind_snd. cbn [emit snd].
  rewrite ui_bind_snd, show_error_details_snd.
  destruct (error_details s); [|reflexivity].
  rewrite ui_bind_snd, show_corrected_code_snd.
  rewrite ui_bind_snd, show_suggestions_snd.
  destruct (suggestions s); [|reflexivity].
  apply show_raw_response_snd.
Qed.

(** The two fields tested for the marker are [None] exactly when no line
    of the parser assigns them. *)
Lemma fields_assigned (text : str) :
  exists s ok,
    parse_ai_response text = Ok (s, ok) /\
    is_None (error_details s) = negb (error_details_assigned text) /\
    is_None (suggestions s) = negb (suggestions_assigned text).
Proof.
  destruct (parse_characterisation text)
    as [s [ok [P [_ [M [N1 [_ [_ I]]]]]]]].
  exists s, ok. split; [exact P|].
  unfold error_details_assigned, suggestions_assigned. split.
  - destruct (error_located text) eqn:EL.
    + now rewrite (N1 eq_refl).
    + rewrite (M eq_refl). cbn [orb].
      now destruct (contains (py "error details") (lower text)).
  - destruct (suggestions s) as [v|] eqn:S.
    + destruct (suggestions_located text); [reflexivity|].
      destruct (contains (py "suggestions") (lower text)); [reflexivity|].
      destruct I as [_ I]. now specialize (I (conj eq_refl eq_refl)).
    + destruct I as [I _]. destruct (I eq_refl) as [-> ->]. reflexivity.
Qed.

(** X10.  The results are displayed to the end exactly when the parser
    has assigned both [error_details] (the section was located, or the
    lowered reply contains the phrase [error details]) and [suggestions]
    (the heading was found, or the lowered reply contains the word
    [suggestions]); otherwise the membership test of line 189 or 215 is
    made on [None] and raises [TypeError]. *)
Theorem display_ends_iff_fields_assigned (text : str) :
  snd (show_results text) =
  if error_details_assigned text && suggestions_assigned text
  then Done tt else Raised TypeError.
Proof.
  destruct (fields_assigned text) as [s [ok [P [E S]]]].
  rewrite (show_results_snd _ P).
  destruct (error_details_assigned text), (suggestions_assigned text),
    (error_details s), (suggestions s); try discriminate; reflexivity.
Qed.

(** X11.  A reply parsed with the flag true and without suggestions still
    ends in the handler of lines 236-238: the run finishes with the calls
    [st.error] and [st.exception] on a [TypeError]. *)
Theorem success_without_suggestions_fails (text : str) (s : sections) :
  parse_ai_response text = Ok (s, true) ->
  suggestions s = None ->
  exists evs,
    analyze (Parts text) =
    evs ++ [Call st_error (About TypeError);
            Call st_exception (About TypeError)].
Proof.
  intros P S. unfold analyze.
  pose proof (show_results_snd _ P) as R. rewrite S in R.
  destruct (show_results text) as [ev out]. cbn [snd] in R.
  exists ev. destruct (error_details s); now subst out.
Qed.

Lemma success_without_suggestions_fails_witness :
  exists evs,
    analyze (Parts (py "## Error Details\nFoo\n## Corrected Code\n```\nbar\n```"))
    = evs ++ [Call st_error (About TypeError);
              Call st_exception (About TypeError)].
Proof.
  apply (@success_without_suggestions_fails _
           {| error_details := Some (py "Foo");
              corrected_code := Some (py "bar");
              suggestions := None |});
    vm_compute; reflexivity.
Defined.

(** X12.  The start of the script ends unconfigured without any message
    exactly when the Streamlit secrets hold a GOOGLE_API_KEY that counts
    as false (an empty string, a zero, [false], an empty array or
    table); the environment variable is not consulted then. *)
Theorem unconfigured_in_silence (secrets : secret) (environ : option str)
    (configure : toml_value -> option py_exn) :
  configure_app secrets environ configure = ([], false) <->
  exists v, secrets = SecretFound v /\ value_truthy v = false.
Proof.
  unfold configure_app. split.
  - destruct secrets as [v|].
    + destruct (value_truthy v) eqn:T; [|intros _; now exists v].
      destruct (configure v); [|discriminate].
      intros H. injection H as H. discriminate.
    + destruct environ as [[|x e]|]; cbn; try discriminate.
      destruct (configure (TomlStr (x :: e))); [|discriminate].
      intros H. injection H as H. discriminate.
  - intros [v [-> T]]. now rewrite T.
Qed.

Lemma show_results_fst (text : str) (s : sections) (ok : bool) :
  parse_ai_response text = Ok (s, ok) ->
  fst (show_results text) =
  Call st_subheader (Fixed ANALYSIS_RESULTS)
  :: fst (show_error_details s ok)
  ++ match error_details s with
     | None => []
     | Some _ =>
         fst (show_corrected_code s ok)
         ++ fst (show_suggestions s)
         ++ match suggestions s with
            | None => []
            | Some _ => fst (show_raw_response text ok)
            end
     end.
Proof.
  intros P. unfold show_results. rewrite P.
  rewrite ui_bind_fst. cbn [emit fst snd app]. f_equal.
  rewrite ui_bind_fst, show_error_details_snd. f_equal.
  destruct (error_details s); [|reflexivity].
  rewrite ui_bind_fst, show_corrected_code_snd. f_equal.
  rewrite ui_bind_fst, show_suggestions_snd. f_equal.
  now destruct (suggestions s).
Qed.

Lemma analyze_Parts (text : str) :
  analyze (Parts text) =
  fst (show_results text)
  ++ match snd (show_results text) with
     | Done _ => []
     | Raised e => [Call st_error (About e); Call st_exception (About e)]
     end.
Proof.
  unfold analyze. destruct (show_results text) as [ev [a|e]]; cbn [fst snd];
    [now rewrite app_nil_r | reflexivity].
Qed.

Lemma show_error_details_None (s : sections) (ok : bool) :
  error_details s = None ->
  show_error_details s ok =
  ([Call st_markdown (Fixed ERROR_DETAILS_TITLE)], Raised TypeError).
Proof. intros E. unfold show_error_details. now rewrite E. Qed.

(** X13.  When the reply has no [## Error Details] heading, in any
    letter case, and the lowered reply does not contain the phrase
    [error details], nothing of the reply is displayed, whatever else it
    holds: the run makes four calls, the two titles and the two of the
    handler. *)
Theorem nothing_shown_without_error_details (text : str) :
  find true H_ERROR text = None ->
  contains (py "error details") (lower text) = false ->
  analyze (Parts text) =
  [Call st_subheader (Fixed ANALYSIS_RESULTS);
   Call st_markdown (Fixed ERROR_DETAILS_TITLE);
   Call st_error (About TypeError);
   Call st_exception (About TypeError)].
Proof.
  intros F K. destruct (fields_assigned text) as [s [ok [P [E _]]]].
  assert (EL : error_located text = false).
  { unfold error_located. now rewrite (error_search_absent _ F). }
  unfold error_details_assigned in E. rewrite EL, K in E. cbn in E.
  destruct (error_details s) as [d|] eqn:D; [discriminate E|].
  rewrite analyze_Parts, (show_results_snd _ P), (show_results_fst _ P), D.
  now rewrite (@show_error_details_None s ok D).
Qed.

Lemma nothing_shown_without_error_details_witness :
  analyze (Parts (py "## Corrected Code\n```python\nprint(1)\n```\n## Suggestions\nUse a linter."))
  = [Call st_subheader (Fixed ANALYSIS_RESULTS);
     Call st_markdown (Fixed ERROR_DETAILS_TITLE);
     Call st_error (About TypeError);
     Call st_exception (About TypeError)].
Proof.
  apply nothing_shown_without_error_details; vm_compute; reflexivity.
Defined.

Lemma show_error_details_no_text_area (s : sections) (ok : bool) :
  existsb is_text_area (fst (show_error_details s ok)) = false.
Proof.
  unfold show_error_details.
  destruct (error_details s) as [d|]; [|reflexivity].
  destruct (contains MARK d); [reflexivity|].
  destruct (str_eqb d _ && negb ok); [reflexivity|].
  now destruct (truthy (Some d)).
Qed.

Lemma show_corrected_code_no_text_area (s : sections) (ok : bool) :
  existsb is_text_area (fst (show_corrected_code s ok)) = false.
Proof.
  unfold show_corrected_code.
  destruct (corrected_code s) as [[|x c]|].
  - now destruct ok.
  - now destruct (contains MARK (x :: c)).
  - now destruct ok.
Qed.

Lemma show_suggestions_no_text_area (s : sections) :
  existsb is_text_area (fst (show_suggestions s)) = false.
Proof.
  unfold show_suggestions.
  destruct (suggestions s) as [t|]; [|reflexivity].
  destruct (contains MARK t); [reflexivity|].
  now destruct (truthy (Some t)).
Qed.

Lemma show_raw_response_text_area (text : str) (ok : bool) :
  existsb is_text_area (fst (show_raw_response text ok)) =
  negb ok && truthy (Some text).
Proof.
  unfold show_raw_response.
  now destruct (negb ok && truthy (Some text)).
Qed.

Lemma error_details_assigned_nonempty (text : str) :
  error_details_assigned text = true -> truthy (Some text) = true.
Proof. destruct text; [discriminate | reflexivity]. Qed.

(** X14.  The raw reply is put in its text area exactly when the parse
    failed and the parser has assigned both [error_details] and
    [suggestions] (section located, or phrase in the lowered reply); a
    failed parse that leaves one of the two unset never shows the
    reply. *)
Theorem raw_reply_shown_iff (text : str) (s : sections) (ok : bool) :
  parse_ai_response text = Ok (s, ok) ->
  existsb is_text_area (analyze (Parts text)) =
  negb ok && error_details_assigned text && suggestions_assigned text.
Proof.
  intros P. destruct (fields_assigned text) as [s' [ok' [P' [E S]]]].
  rewrite P in P'. injection P' as <- <-.
  rewrite analyze_Parts, existsb_app.
  rewrite (show_results_snd _ P), (show_results_fst _ P).
  cbn [existsb is_text_area orb]. rewrite existsb_app.
  rewrite show_error_details_no_text_area. cbn [orb].
  destruct (error_details s) as [d|].
  - destruct (error_details_assigned text) eqn:K1; [|discriminate E].
    rewrite !existsb_app, show_corrected_code_no_text_area,
      show_suggestions_no_text_area. cbn [orb].
    destruct (suggestions s) as [t|].
    + destruct (suggestions_assigned text); [|discriminate S].
      rewrite show_raw_response_text_area.
      rewrite (error_details_assigned_nonempty _ K1). now destruct ok.
    + destruct (suggestions_assigned text); [discriminate S|].
      now rewrite andb_false_r.
  - destruct (error_details_assigned text); [discriminate E|].
    now rewrite andb_false_r.
Qed.

Lemma raw_reply_shown_iff_witness :
  existsb is_text_area
    (analyze (Parts (py "The error details and suggestions follow.")))
  = negb false
    && error_details_assigned (py "The error details and suggestions follow.")
    && suggestions_assigned (py "The error details and suggestions follow.").
Proof.
  apply (@raw_reply_shown_iff _
           {| error_details := Some MSG_ERROR_DETAILS;
              corrected_code := None;
              suggestions := Some MSG_SUGGESTIONS |}).
  vm_compute. reflexivity.
Defined.

(** Without a located Corrected Code section the field is left as it was
    or holds one of the two diagnostic messages. *)
Lemma code_not_located_field (text : str) (l : locals) :
  code_located text = false ->
  exists l',
    extract_corrected_code text l = Ok l' /\
    (corrected_code (secs l') = corrected_code (secs l) \/
     corrected_code (secs l') = Some MSG_NO_BLOCK \/
     corrected_code (secs l') = Some MSG_NO_HEADING).
Proof.
  unfold code_located.
  destruct (search heading_re text IGNORECASE_only) as [hm|] eqn:E1.
  - destruct (search code_block_re (slice_from (m_end hm) text) DOTALL_only)
      as [m|] eqn:E2; [discriminate|]. intros _.
    rewrite (@extract_corrected_code_no_block text l hm E1 E2).
    eexists. split; [reflexivity|].
    destruct (contains (py "corrected code") (lower text)); cbn; auto.
  - intros _. rewrite (@extract_corrected_code_no_heading text l E1).
    eexists. split; [reflexivity|].
    destruct (contains (py "corrected code") (lower text)); cbn; auto.
Qed.

Lemma code_field_not_located (text : str) (s : sections) (ok : bool) :
  parse_ai_response text = Ok (s, ok) ->
  code_located text = false ->
  corrected_code s = None \/
  corrected_code s = Some MSG_NO_BLOCK \/
  corrected_code s = Some MSG_NO_HEADING.
Proof.
  intros P CL.
  destruct (parse_run text)
    as [l1 [l2 [l3 [S1 [S2 [_ [_ [P' [_ [F2 _]]]]]]]]]].
  rewrite P in P'. injection P' as -> _. rewrite F2.
  destruct (error_step text initial) as [l1' [S1' [_ [F1 _]]]].
  rewrite S1 in S1'. injection S1' as <-.
  destruct (@code_not_located_field text l1 CL) as [l2' [S2' H]].
  rewrite S2 in S2'. injection S2' as <-.
  rewrite F1 in H. exact H.
Qed.

Lemma In_show_error_details_code (s : sections) (ok : bool) (v : str) :
  ~ In (Call st_code (Dynamic v)) (fst (show_error_details s ok)).
Proof.
  unfold show_error_details.
  destruct (error_details s) as [d|].
  - destruct (contains MARK d);
      [|destruct (str_eqb d _ && negb ok);
        [|destruct (truthy (Some d))]];
      cbn; intros [H|[H|[]]]; discriminate H.
  - cbn. intros [H|[]]. discriminate H.
Qed.

Lemma In_show_suggestions_code (s : sections) (v : str) :
  ~ In (Call st_code (Dynamic v)) (fst (show_suggestions s)).
Proof.
  unfold show_suggestions.
  destruct (suggestions s) as [t|].
  - destruct (contains MARK t); [|destruct (truthy (Some t))];
      cbn; intros [H|[H|[]]]; discriminate H.
  - cbn. intros [H|[]]. discriminate H.
Qed.

Lemma In_show_raw_response_code (text : str) (ok : bool) (v : str) :
  ~ In (Call st_code (Dynamic v)) (fst (show_raw_response text ok)).
Proof.
  unfold show_raw_response.
  destruct (negb ok && truthy (Some text)); cbn.
  - intros [H|[H|[]]]; discriminate H.
  - intros [].
Qed.

Lemma In_show_corrected_code_code (s : sections) (ok : bool) (v : str) :
  In (Call st_code (Dynamic v)) (fst (show_corrected_code s ok)) <->
  corrected_code s = Some v /\ v <> [] /\ contains MARK v = false.
Proof.
  unfold show_corrected_code.
  destruct (corrected_code s) as [[|x c]|].
  - split.
    + destruct ok; cbn; intros H; repeat destruct H as [H|H];
        try discriminate H; destruct H.
    + intros [H [N _]]. injection H as <-. congruence.
  - destruct (contains MARK (x :: c)) eqn:K.
    + split.
      * cbn. intros [H|[H|[]]]; discriminate H.
      * intros [H [_ K']]. injection H as <-. congruence.
    + split.
      * cbn. intros [H|[H|[]]]; [discriminate H|]. injection H as <-.
        repeat split; [discriminate | exact K].
      * intros [H _]. injection H as <-. cbn. auto.
  - split.
    + destruct ok; cbn; intros H; repeat destruct H as [H|H];
        try discriminate H; destruct H.
    + intros [H _]. discriminate H.
Qed.

(** X15.  The code box of line 205 is given [v] exactly when the field
    [error_details] is set (so that line 189 has not raised), the field
    [corrected_code] is [v], and [v] is not empty and has no diagnostic
    marker; the field then comes from a fenced block found after the
    heading. *)
Theorem code_box_shows_the_block (text v : str) :
  In (Call st_code (Dynamic v)) (analyze (Parts text)) <->
  exists s ok,
    parse_ai_response text = Ok (s, ok) /\
    error_details s <> None /\
    code_located text = true /\
    corrected_code s = Some v /\ v <> [] /\ contains MARK v = false.
Proof.
  destruct (parse_characterisation text) as [s [ok [P _]]].
  rewrite analyze_Parts, (show_results_snd _ P), (show_results_fst _ P).
  split.
  - intros H. exists s, ok. split; [exact P|].
    apply in_app_or in H. destruct H as [H|H].
    2:{ destruct (error_details s); [destruct (suggestions s)|];
          cbn in H; repeat destruct H as [H|H]; try discriminate H;
          destruct H. }
    destruct H as [H|H]; [discriminate H|].
    apply in_app_or in H. destruct H as [H|H];
      [now apply In_show_error_details_code in H|].
    destruct (error_details s) as [d|]; [|destruct H].
    split; [discriminate|].
    apply in_app_or in H. destruct H as [H|H].
    + apply In_show_corrected_code_code in H. destruct H as [C [N M]].
      split; [|auto].
      destruct (code_located text) eqn:CL; [reflexivity|].
      destruct (@code_field_not_located text s ok P CL) as [C'|[C'|C']];
        rewrite C in C'; [discriminate C'| |];
        injection C' as ->; vm_compute in M; discriminate M.
    + apply in_app_or in H. destruct H as [H|H];
        [now apply In_show_suggestions_code in H|].
      destruct (suggestions s); [|destruct H].
      now apply In_show_raw_response_code in H.
  - intros [s' [ok' [P' [E [_ [C [N M]]]]]]].
    rewrite P in P'. injection P' as <- <-.
    apply in_or_app. left. right. apply in_or_app. right.
    destruct (error_details s) as [d|]; [|congruence].
    apply in_or_app. left. apply In_show_corrected_code_code. auto.
Qed.

Lemma code_box_shows_the_block_witness :
  In (Call st_code (Dynamic (py "print('ok')")))
     (analyze (Parts (py "## Error Details\nName undefined\n## Corrected Code\n```python\nprint('ok')\n```\n## Suggestions\nAdd type hints."))).
Proof.
  apply code_box_shows_the_block.
  exists {| error_details := Some (py "Name undefined");
            corrected_code := Some (py "print('ok')");
            suggestions := Some (py "Add type hints.") |}, true.
  vm_compute. repeat split; discriminate.
Defined.

(** A property of every call of a run on a reply with parts follows from
    the property for the calls of each block and of the handler. *)
Lemma analyze_Forall (Q : call -> Prop) (text : str) (s : sections)
    (ok : bool) :
  parse_ai_response text = Ok (s, ok) ->
  Q (Call st_subheader (Fixed ANALYSIS_RESULTS)) ->
  Forall Q (fst (show_error_details s ok)) ->
  Forall Q (fst (show_corrected_code s ok)) ->
  Forall Q (fst (show_suggestions s)) ->
  Forall Q (fst (show_raw_response text ok)) ->
  Q (Call st_error (About TypeError)) ->
  Q (Call st_exception (About TypeError)) ->
  Forall Q (analyze (Parts text)).
Proof.
  intros P Q0 QD QC QS QR Q1 Q2.
  rewrite analyze_Parts, (show_results_snd _ P), (show_results_fst _ P).
  apply Forall_app. split.
  - constructor; [exact Q0|]. apply Forall_app. split; [exact QD|].
    destruct (error_details s); [|constructor].
    apply Forall_app. split; [exact QC|].
    apply Forall_app. split; [exact QS|].
    destruct (suggestions s); [exact QR | constructor].
  - destruct (error_details s); [destruct (suggestions s)|];
      repeat constructor; assumption.
Qed.

Lemma run_app_Forall (Q : call -> Prop) :
  Q (Call st_spinner (Fixed SPINNER_TEXT)) ->
  Q (Call st_warning (Fixed ENTER_SOME_CODE)) ->
  Q (Call st_error (Fixed NOT_CONFIGURED)) ->
  forall r, Forall Q (analyze r) ->
  forall analyze_button user_code genai_configured,
    Forall Q (run_app analyze_button user_code genai_configured r).
Proof.
  intros Q1 Q2 Q3 r QA b c g. unfold run_app.
  destruct (b && truthy (Some c) && g); [now constructor|].
  destruct (b && negb (truthy (Some c))); [now repeat constructor|].
  destruct (b && negb g); now repeat constructor.
Qed.

Lemma analyze_other_Forall (Q : call -> Prop) (r : reply) :
  (forall text, r <> Parts text) ->
  (forall e, Q (Call st_error (About e))) ->
  (forall e, Q (Call st_exception (About e))) ->
  Q (Call st_error (Fixed BLOCKED)) ->
  Q (Call st_json Feedback) ->
  Q (Call st_write (Fixed NO_PROMPT_FEEDBACK)) ->
  Forall Q (analyze r).
Proof.
  intros N Q1 Q2 Q3 Q4 Q5. destruct r as [e|[|]|text].
  - cbn. now repeat constructor.
  - cbn. now repeat constructor.
  - cbn. now repeat constructor.
  - now elim (N text).
Qed.

(** X16.  Whatever the reply, the notice of line 220 is never displayed:
    the field [suggestions] is never the empty string, and on [None] the
    test of line 215 has raised before. *)
Theorem no_suggestions_notice_never_shown (analyze_button : bool)
    (user_code : str) (genai_configured : bool) (r : reply) :
  ~ In (Call st_info (Fixed NO_SUGGESTIONS))
       (run_app analyze_button user_code genai_configured r).
Proof.
  intros H.
  assert (F : Forall (fun c => c <> Call st_info (Fixed NO_SUGGESTIONS))
                     (run_app analyze_button user_code genai_configured r)).
  { apply run_app_Forall; try discriminate.
    destruct r as [e|b|text];
      try (apply analyze_other_Forall; discriminate).
    destruct (parse_characterisation text)
      as [s [ok [P [_ [_ [_ [_ [T _]]]]]]]].
    apply (analyze_Forall _ P); try discriminate.
    - unfold show_error_details.
      destruct (error_details s) as [d|];
        [destruct (contains MARK d);
         [|destruct (str_eqb d _ && negb ok);
           [|destruct (truthy (Some d))]]|];
        repeat constructor; discriminate.
    - unfold show_corrected_code.
      destruct (corrected_code s) as [[|x c]|];
        [destruct ok | destruct (contains MARK (x :: c)) | destruct ok];
        repeat constructor; discriminate.
    - unfold show_suggestions.
      destruct (suggestions s) as [t|]; [|repeat constructor; discriminate].
      destruct T as [T|T]; [discriminate T|]. rewrite T.
      destruct (contains MARK t); repeat constructor; discriminate.
    - unfold show_raw_response.
      destruct (negb ok && truthy (Some text));
        repeat constructor; discriminate. }
  rewrite Forall_forall in F. now apply (F _ H).
Qed.

(** X17.  A string with the diagnostic marker is displayed only by
    [st.warning] and in the text area of the raw reply, never as markdown
    and never in the code box. *)
Theorem diagnostics_shown_as_warnings (analyze_button : bool)
    (user_code : str) (genai_configured : bool) (r : reply)
    (f : st_function) (v : str) :
  In (Call f (Dynamic v))
     (run_app analyze_button user_code genai_configured r) ->
  contains MARK v = true ->
  f = st_warning \/ f = st_text_area.
Proof.
  intros H K.
  pose (Q := fun c => forall f v, c = Call f (Dynamic v) ->
                      contains MARK v = true ->
                      f = st_warning \/ f = st_text_area).
  assert (F : Forall Q (run_app analyze_button user_code genai_configured r)).
  { assert (Qfixed : forall g t, Q (Call g (Fixed t)))
      by (intros g t g' v' E; discriminate E).
    assert (Qabout : forall g e, Q (Call g (About e)))
      by (intros g e g' v' E; discriminate E).
    assert (Qwarn : forall t, Q (Call st_warning (Dynamic t)))
      by (intros t g' v' E _; injection E as <- _; now left).
    assert (Qarea : forall t, Q (Call st_text_area (Dynamic t)))
      by (intros t g' v' E _; injection E as <- _; now right).
    assert (Qclean : forall g t, contains MARK t = false ->
                                 Q (Call g (Dynamic t))).
    { intros g t M g' v' E K'. injection E as _ <-. congruence. }
    apply run_app_Forall; auto.
    destruct r as [e|b|text].
    - apply analyze_other_Forall; auto; try discriminate;
        intros g' v' E; discriminate E.
    - apply analyze_other_Forall; auto; try discriminate;
        intros g' v' E; discriminate E.
    - destruct (parse_characterisation text) as [s [ok [P _]]].
      apply (analyze_Forall _ P); auto.
      + unfold show_error_details.
        destruct (error_details s) as [d|];
          [destruct (contains MARK d) eqn:M;
           [|destruct (str_eqb d _ && negb ok);
             [|destruct (truthy (Some d))]]|];
          repeat (apply Forall_cons || apply Forall_nil); auto.
      + unfold show_corrected_code.
        destruct (corrected_code s) as [[|x c]|];
          [destruct ok | destruct (contains MARK (x :: c)) eqn:M
           | destruct ok];
          repeat (apply Forall_cons || apply Forall_nil); auto.
      + unfold show_suggestions.
        destruct (suggestions s) as [t|];
          [destruct (contains MARK t) eqn:M;
           [|destruct (truthy (Some t))]|];
          repeat (apply Forall_cons || apply Forall_nil); auto.
      + unfold show_raw_response.
        destruct (negb ok && truthy (Some text));
          repeat (apply Forall_cons || apply Forall_nil); auto. }
  rewrite Forall_forall in F. exact (F _ H f v eq_refl K).
Qed.

Lemma diagnostics_shown_as_warnings_witness :
  In (Call st_warning (Dynamic MSG_ERROR_DETAILS))
     (run_app true (py "x = 1") true
        (Parts (py "The error details are below."))) /\
  contains MARK MSG_ERROR_DETAILS = true /\
  (st_warning = st_warning \/ st_warning = st_text_area).
Proof.
  assert (H : In (Call st_warning (Dynamic MSG_ERROR_DETAILS))
                 (run_app true (py "x = 1") true
                    (Parts (py "The error details are below.")))).
  { vm_compute. repeat (first [left; reflexivity | right]). }
  assert (K : contains MARK MSG_ERROR_DETAILS = true)
    by (vm_compute; reflexivity).
  split; [exact H|]. split; [exact K|].
  exact (diagnostics_shown_as_warnings _ _ _ _ _ _ H K).
Defined.
